(** * A formula-driven spreadsheet engine: shallow embedding and properties

    The embedding follows the Go sources of package [internal]:
    - the cell-address codec ([ParseCellID], [decodeRowExpr]);
    - the tokenizer and the recursive-descent parser, in the two revisions
      that carry unary minus (module [Expr], without parentheses, and module
      [ExprParen], with parentheses and constant folding);
    - the spreadsheet itself ([SetCellValue], [GetCellValue], [evalExpr],
      [refresh], [rootReferrers], [topSort]).

    Conventions.
    - Go's [int] is a 64-bit two's-complement integer: values are [Z] and
      every arithmetic operation is followed by [wrap64].
    - A Go string is a [string]; [[]rune(str)] is its list of characters.
      All characters the code distinguishes are ASCII, any other byte takes
      the same branch as any other rune would.
    - A call returns [Ok v], returns a Go error ([Err e]), or stops with a
      run-time panic ([Panic]).  Loops that are not structurally recursive
      carry fuel; [NoFuel] marks an exhausted model and is shown unreachable.
    - Go leaves the iteration order of [range] over a map unspecified: every
      such loop iterates over the list chosen by a [RangeOrder], which may be
      any enumeration of the map's keys. *)

From Stdlib Require Import ZArith Ascii String List Lia Bool.
From stdpp Require Import base gmap sets list strings.

Local Open Scope Z_scope.

(** ** Machine integers *)

Definition min_int64 : Z := - 2 ^ 63.
Definition max_int64 : Z := 2 ^ 63 - 1.

Definition in_int64 (z : Z) : Prop := min_int64 <= z <= max_int64.

Definition wrap64 (z : Z) : Z := (z + 2 ^ 63) mod 2 ^ 64 - 2 ^ 63.

(** ** Errors and outcomes *)

(** The sentinel errors of the package; [ErrPlain] is an error built by
    [fmt.Errorf] without wrapping a sentinel. *)
Inductive error : Type :=
  | ErrParseCellID
  | ErrValueType
  | ErrExprParse
  | ErrCircRef
  | ErrPlain (msg : string).

Inductive result (A : Type) : Type :=
  | Ok (a : A)
  | Err (e : error)
  | Panic
  | NoFuel.

Arguments Ok {A} a.
Arguments Err {A} e.
Arguments Panic {A}.
Arguments NoFuel {A}.

Definition bind {A B : Type} (r : result A) (k : A -> result B) : result B :=
  match r with
  | Ok a => k a
  | Err e => Err e
  | Panic => Panic
  | NoFuel => NoFuel
  end.

Notation "'do' x <- r ; k" := (bind r (fun x => k))
  (at level 10, x pattern, r at level 100, k at level 200).

(** ** Runes *)

Definition rune : Type := ascii.

Definition code (c : rune) : Z := Z.of_N (N_of_ascii c).

(** [between target lb ub] *)
Definition between (target lb ub : rune) : bool :=
  (code lb <=? code target) && (code target <=? code ub).

Definition isUpper (c : rune) : bool := between c "A"%char "Z"%char.
Definition isDigit (c : rune) : bool := between c "0"%char "9"%char.

Definition runes (s : string) : list rune := list_ascii_of_string s.
Definition str (l : list rune) : string := string_of_list_ascii l.

(** Longest prefix whose characters satisfy [p], and the rest. *)
Fixpoint span (p : rune -> bool) (l : list rune) : list rune * list rune :=
  match l with
  | [] => ([], [])
  | c :: tl =>
      if p c then let '(a, b) := span p tl in (c :: a, b) else ([], l)
  end.

(** ** Cell identifiers *)

Record CellID : Type := mkCellID { row : Z; column : Z }.

Global Instance CellID_eq_dec : EqDecision CellID.
Proof. solve_decision. Defined.

Global Instance CellID_countable : Countable CellID.
Proof.
  refine (inj_countable' (fun c => (row c, column c))
                         (fun p => mkCellID (fst p) (snd p)) _).
  intros []; reflexivity.
Defined.

(** *** [strconv.Atoi] (Go standard library): an optional sign, then one or
    more decimal digits, with a range check on the 64-bit result. *)

Fixpoint allDigits (l : list rune) : bool :=
  match l with
  | [] => true
  | c :: tl => isDigit c && allDigits tl
  end.

Fixpoint decimal (acc : Z) (l : list rune) : Z :=
  match l with
  | [] => acc
  | c :: tl => decimal (10 * acc + (code c - code "0"%char)) tl
  end.

Definition AtoiDigits (neg : bool) (l : list rune) : option Z :=
  match l with
  | [] => None
  | _ =>
      if allDigits l then
        let n := decimal 0 l in
        if neg then (if n <=? 2 ^ 63 then Some (- n) else None)
        else (if n <=? max_int64 then Some n else None)
      else None
  end.

Definition Atoi (s : string) : option Z :=
  match runes s with
  | [] => None
  | c :: tl =>
      if Ascii.eqb c "-"%char then AtoiDigits true tl
      else if Ascii.eqb c "+"%char then AtoiDigits false tl
      else AtoiDigits false (c :: tl)
  end.

(** *** [cellRegexp.FindStringSubmatch] for the pattern [([A-Z]+)([0-9]+)].

    The pattern is not anchored: the leftmost position where a run of
    upper-case letters is directly followed by a digit matches.  Both groups
    are greedy, so at a given start the letters group is the whole run of
    letters and the digits group the whole run of digits after it. *)
Fixpoint FindStringSubmatch (l : list rune) : option (list rune * list rune) :=
  match l with
  | [] => None
  | _ :: tl =>
      let '(letters, r1) := span isUpper l in
      let '(digits, _) := span isDigit r1 in
      match letters, digits with
      | _ :: _, _ :: _ => Some (letters, digits)
      | _, _ => FindStringSubmatch tl
      end
  end.

(** *** [decodeRowExpr] *)

(** First loop: reject any rune outside [A-Z], collect the others. *)
Fixpoint collectRunes (l : list rune) : result (list rune) :=
  match l with
  | [] => Ok []
  | ch :: tl =>
      if (code ch <? code "A"%char) || (code "Z"%char <? code ch)
      then Err ErrParseCellID
      else do r <- collectRunes tl; Ok (ch :: r)
  end.

(** Last loop, over the reversed runes: [sum += digit * currBase;
    currBase *= base]. *)
Fixpoint decodeLoop (rs : list rune) (currBase sum : Z) : Z :=
  match rs with
  | [] => sum
  | r :: tl =>
      let digit := code r - code "A"%char + 1 in
      decodeLoop tl (wrap64 (currBase * 26)) (wrap64 (sum + wrap64 (digit * currBase)))
  end.

Definition decodeRowExpr (l : list rune) : result Z :=
  do rs <- collectRunes l;
  Ok (wrap64 (decodeLoop (rev rs) 1 0 - 1)).

(** *** [ParseCellID] *)

Definition ParseCellID (s : string) : result CellID :=
  match FindStringSubmatch (runes s) with
  | None => Err ErrParseCellID
  | Some (rowExpr, colExpr) =>
      match decodeRowExpr rowExpr with
      | Ok rowIdx =>
          match Atoi (str colExpr) with
          | Some colIdx => Ok (mkCellID rowIdx (wrap64 (colIdx - 1)))
          | None => Err ErrParseCellID
          end
      | Err _ => Err ErrParseCellID
      | Panic => Panic
      | NoFuel => NoFuel
      end
  end.

(** ** Expression trees *)

Definition Token : Type := string.

Definition TokenAdd : Token := "+".
Definition TokenSub : Token := "-".
Definition TokenMul : Token := "*".
Definition TokenDiv : Token := "/".
Definition TokenRPar : Token := ")".
Definition TokenLPar : Token := "(".

Inductive Expr : Type :=
  | UnaryExpr (X : Expr) (Op : Token)
  | BinaryExpr (X : Expr) (Op : Token) (Y : Expr)
  | ConstExpr (Value : Z)
  | CellRefExpr (Ref : CellID).

(** [CellRefs]: the type switch has cases for [BinaryExpr], [ConstExpr] and
    [CellRefExpr]; every other expression falls through to [return nil]. *)
Fixpoint CellRefs (e : Expr) : list CellID :=
  match e with
  | BinaryExpr X _ Y =>
      let r := CellRefs Y in
      match r with
      | [] => CellRefs X
      | _ => CellRefs X ++ r
      end
  | ConstExpr _ => []
  | CellRefExpr Ref => [Ref]
  | UnaryExpr _ _ => []
  end.

(** Test helpers of the package ([add], [mul], [sub], [div], [val],
    [cellRef], [neg]). *)
Definition add (X Y : Expr) : Expr := BinaryExpr X TokenAdd Y.
Definition sub (X Y : Expr) : Expr := BinaryExpr X TokenSub Y.
Definition mul (X Y : Expr) : Expr := BinaryExpr X TokenMul Y.
Definition div (X Y : Expr) : Expr := BinaryExpr X TokenDiv Y.
Definition val (x : Z) : Expr := ConstExpr x.
Definition cellRef (r c : Z) : Expr := CellRefExpr (mkCellID r c).
Definition neg (X : Expr) : Expr := UnaryExpr X TokenSub.

(** ** Tokenizer

    The loop index [i] is represented by the suffix [runes[i:]]. *)

(** [for runes[i] == ' ' { i++ }]: the index is not compared with
    [len(runes)], so running off the end is an index-out-of-range panic. *)
Fixpoint skipSpaces (rs : list rune) : result (list rune) :=
  match rs with
  | [] => Panic
  | c :: tl => if Ascii.eqb c " "%char then skipSpaces tl else Ok rs
  end.

Definition isIdentChar (c : rune) : bool := isDigit c || isUpper c.

Section Tokenizer.
(** [runeMap], the table of one-character tokens. *)
Variable runeMap : rune -> option Token.

(** The body of [for i := 1; i < len(runes); i++]; [rs] is [runes[i:]]. *)
Fixpoint tokLoop (fuel : nat) (rs : list rune) (tokens : list Token)
  : result (list Token) :=
  match rs with
  | [] => Ok tokens
  | _ :: _ =>
      match fuel with
      | O => NoFuel
      | S fuel' =>
          do rs1 <- skipSpaces rs;
          match rs1 with
          | [] => Panic
          | c :: tl =>
              if isDigit c then
                let '(tok, rest) := span isDigit rs1 in
                tokLoop fuel' rest (tokens ++ [str tok])
              else if isUpper c then
                let '(tok, rest) := span isIdentChar rs1 in
                tokLoop fuel' rest (tokens ++ [str tok])
              else
                match runeMap c with
                | Some token => tokLoop fuel' tl (tokens ++ [token])
                | None => Err ErrExprParse
                end
          end
      end
  end.

Definition tokenize (s : string) : result (list Token) :=
  match runes s with
  | [] => Panic
  | c :: tl =>
      if negb (Ascii.eqb c "="%char) then Err ErrExprParse
      else tokLoop (length tl) tl []
  end.
End Tokenizer.

(** ** Parser *)

Definition parsed : Type := Expr * list Token.

Definition isTermTok (t : Token) : bool := String.eqb t TokenAdd || String.eqb t TokenSub.
Definition isFactorTok (t : Token) : bool := String.eqb t TokenMul || String.eqb t TokenDiv.

(** The operator loop shared by the binary levels: as long as the next token
    is one of [validOps], parse a right operand with [next] and fold it into
    the tree accumulated so far, which becomes the left child. *)
Fixpoint binLoop (validOps : Token -> bool) (next : list Token -> result parsed)
    (fuel : nat) (expr : Expr) (rest : list Token) : result parsed :=
  match rest with
  | [] => Ok (expr, [])
  | token :: tl =>
      if validOps token then
        match fuel with
        | O => NoFuel
        | S fuel' =>
            do (Y, rest') <- next tl;
            binLoop validOps next fuel' (BinaryExpr expr token Y) rest'
        end
      else Ok (expr, rest)
  end.

(** [parseBinExpr]: parse the left operand, then run the operator loop. *)
Definition parseBinExpr (tokens : list Token) (validOps : Token -> bool)
    (next : list Token -> result parsed) : result parsed :=
  do (expr, rest) <- next tokens;
  binLoop validOps next (length rest) expr rest.

(** *** Revision without parentheses (src/internal/expr.go) *)
Module Expr.

Definition runeMap (c : rune) : option Token :=
  if Ascii.eqb c "+"%char then Some TokenAdd
  else if Ascii.eqb c "-"%char then Some TokenSub
  else if Ascii.eqb c "*"%char then Some TokenMul
  else if Ascii.eqb c "/"%char then Some TokenDiv
  else None.

Definition tokenize : string -> result (list Token) := tokenize runeMap.

Definition parsePrimary2 (tokens : list Token) : result parsed :=
  match tokens with
  | [] => Err ErrExprParse
  | t :: tl =>
      match ParseCellID t with
      | Ok cellID => Ok (CellRefExpr cellID, tl)
      | _ =>
          match Atoi t with
          | Some v => Ok (ConstExpr v, tl)
          | None => Err ErrExprParse
          end
      end
  end.

Fixpoint parseUnary2 (tokens : list Token) : result parsed :=
  match tokens with
  | [] => Err ErrExprParse
  | t :: tl =>
      if String.eqb t TokenSub then
        do (X, rest) <- parseUnary2 tl;
        Ok (UnaryExpr X TokenSub, rest)
      else parsePrimary2 tokens
  end.

(** [parseFactor2] and [parseTerm] spell the operator loop out in place. *)
Definition parseFactor2 (tokens : list Token) : result parsed :=
  parseBinExpr tokens isFactorTok parseUnary2.

Definition parseTerm (tokens : list Token) : result parsed :=
  parseBinExpr tokens isTermTok parseFactor2.

Definition parseExpr (tokens : list Token) : result Expr :=
  do (expr, rest) <- parseTerm tokens;
  match rest with
  | [] => Ok expr
  | _ => Err (ErrPlain "unexpected end of expression")
  end.

Definition ParseExpr (s : string) : result Expr :=
  do tokens <- tokenize s;
  parseExpr tokens.

End Expr.

(** *** Revision with parentheses and constant folding (the later expr.go) *)
Module ExprParen.

Definition runeMap (c : rune) : option Token :=
  if Ascii.eqb c "+"%char then Some TokenAdd
  else if Ascii.eqb c "-"%char then Some TokenSub
  else if Ascii.eqb c "*"%char then Some TokenMul
  else if Ascii.eqb c "/"%char then Some TokenDiv
  else if Ascii.eqb c "("%char then Some TokenLPar
  else if Ascii.eqb c ")"%char then Some TokenRPar
  else None.

Definition tokenize : string -> result (list Token) := tokenize runeMap.

Section Grammar.
(** The recursive call of [parsePrimary] into [parseExpr]. *)
Variable parseExpr : list Token -> result parsed.

Definition parsePrimary (tokens : list Token) : result parsed :=
  match tokens with
  | [] => Err ErrExprParse
  | t :: tl =>
      match ParseCellID t with
      | Ok cellID => Ok (CellRefExpr cellID, tl)
      | _ =>
          match Atoi t with
          | Some v => Ok (ConstExpr v, tl)
          | None =>
              if String.eqb t TokenLPar then
                do (expr, rest) <- parseExpr tl;
                match rest with
                | [] => Err (ErrPlain "expected ')'")
                | r :: rest' =>
                    if String.eqb r TokenRPar then Ok (expr, rest')
                    else Err (ErrPlain "expected ')'")
                end
              else Err ErrExprParse
          end
      end
  end.

Fixpoint parseUnary (tokens : list Token) : result parsed :=
  match tokens with
  | [] => Err ErrExprParse
  | t :: tl =>
      if String.eqb t TokenSub then
        do (X, rest) <- parseUnary tl;
        match X with
        | ConstExpr v => Ok (ConstExpr (wrap64 (- v)), rest)
        | _ => Ok (UnaryExpr X TokenSub, rest)
        end
      else parsePrimary tokens
  end.

Definition parseFactor (tokens : list Token) : result parsed :=
  parseBinExpr tokens isFactorTok parseUnary.

Definition parseTerm (tokens : list Token) : result parsed :=
  parseBinExpr tokens isTermTok parseFactor.
End Grammar.

(** [parseExpr] is [parseTerm]; the fuel bounds the nesting of
    parentheses. *)
Fixpoint parseExprFuel (fuel : nat) (tokens : list Token) : result parsed :=
  match fuel with
  | O => NoFuel
  | S fuel' => parseTerm (parseExprFuel fuel') tokens
  end.

Definition parseExpr (tokens : list Token) : result parsed :=
  parseExprFuel (S (length tokens)) tokens.

Definition ParseExpr (s : string) : result Expr :=
  do tokens <- tokenize s;
  do (expr, rest) <- parseExpr tokens;
  match rest with
  | [] => Ok expr
  | _ => Err (ErrPlain "unexpected end of expression")
  end.

End ExprParen.

(** ** The spreadsheet *)

(** [Cell] *)
Record Cell : Type := mkCell { currValue : Z; expr : option Expr }.

(** [Spreadsheet]: the cell store and the two adjacency maps.  An inner
    map that was never created (a nil map in Go) is an absent key. *)
Record Spreadsheet : Type := mkSpreadsheet {
  cells : gmap CellID Cell;
  refersTo : gmap CellID (gset CellID);
  referredFrom : gmap CellID (gset CellID)
}.

Definition NewSpreadsheet : Spreadsheet := mkSpreadsheet ∅ ∅ ∅.

(** The keys of the inner map [m[c]]; a nil map has none. *)
Definition keys (m : gmap CellID (gset CellID)) (c : CellID) : gset CellID :=
  default ∅ (m !! c).

(** Every cell that occurs in some inner map of [m]. *)
Definition members (m : gmap CellID (gset CellID)) : gset CellID :=
  ⋃ (snd <$> map_to_list m).

(** The value passed to [SetCellValue] ([val any]). *)
Inductive Val : Type :=
  | VInt (n : Z)
  | VString (s : string)
  | VOther.

(** *** Iteration order of [range] over a map *)

(** The three [range] loops over an inner map. *)
Inductive site : Type := InRefresh | InRootReferrers | InVisit.

(** An iteration order gives, for each loop and each cell whose inner map is
    iterated, an enumeration of the keys of that map. *)
Record RangeOrder : Type := mkRangeOrder {
  rangeOver : site -> CellID -> gset CellID -> list CellID;
  rangeOver_perm : forall st c X, rangeOver st c X ≡ₚ elements X
}.

Definition defaultOrder : RangeOrder :=
  mkRangeOrder (fun _ _ X => elements X) (fun _ _ X => reflexivity (elements X)).

Definition reverseOrder : RangeOrder :=
  mkRangeOrder (fun _ _ X => reverse (elements X)) (fun _ _ X => reverse_Permutation (elements X)).

(** Run [step] over a list, left to right, stopping at the first outcome
    that is not [Ok]. *)
Fixpoint forEach {A S : Type} (step : S -> A -> result S) (l : list A) (s : S)
  : result S :=
  match l with
  | [] => Ok s
  | a :: tl => do s' <- step s a; forEach step tl s'
  end.

(** *** Evaluation *)

(** [evalExpr] *)
Fixpoint evalExpr (s : Spreadsheet) (e : Expr) : Z :=
  match e with
  | UnaryExpr X Op =>
      if String.eqb Op TokenSub then wrap64 (- evalExpr s X) else 0
  | BinaryExpr X Op Y =>
      let x := evalExpr s X in
      let y := evalExpr s Y in
      if String.eqb Op TokenAdd then wrap64 (x + y)
      else if String.eqb Op TokenMul then wrap64 (x * y)
      else if String.eqb Op TokenSub then wrap64 (x - y)
      else if String.eqb Op TokenDiv then
        (if y =? 0 then 0 else wrap64 (Z.quot x y))
      else 0
  | ConstExpr Value => Value
  | CellRefExpr Ref =>
      match cells s !! Ref with
      | Some cell => currValue cell
      | None => 0
      end
  end.

(** [eval] *)
Definition eval (s : Spreadsheet) (cid : CellID) : Z :=
  match cells s !! cid with
  | None => 0
  | Some cell =>
      match expr cell with
      | None => currValue cell
      | Some e => evalExpr s e
      end
  end.

(** [GetCellValue] *)
Definition GetCellValue (s : Spreadsheet) (cellID : string) : result Z :=
  do cid <- ParseCellID cellID;
  match cells s !! cid with
  | None => Ok 0
  | Some cell => Ok (currValue cell)
  end.

(** *** Graph maintenance *)

(** [delete(s.referredFrom[ref], cid)] *)
Definition dropReferral (cid : CellID) (s : Spreadsheet) (ref : CellID) : Spreadsheet :=
  mkSpreadsheet (cells s) (refersTo s)
    (alter (fun X => X ∖ {[cid]}) ref (referredFrom s)).

(** [maps.Clear(s.refersTo[cid])] *)
Definition clearRefersTo (cid : CellID) (s : Spreadsheet) : Spreadsheet :=
  mkSpreadsheet (cells s) (alter (fun _ => ∅) cid (refersTo s)) (referredFrom s).

(** [addCellReferral] *)
Definition addCellReferral (source : CellID) (s : Spreadsheet) (target : CellID) : Spreadsheet :=
  mkSpreadsheet (cells s)
    (<[source := {[target]} ∪ keys (refersTo s) source]> (refersTo s))
    (<[target := {[source]} ∪ keys (referredFrom s) target]> (referredFrom s)).

(** The first half of [refresh]: when the cell holds an expression, unset
    its old edges and add one edge per reference of the expression. *)
Definition updateRefs (o : RangeOrder) (s : Spreadsheet) (cid : CellID) (cell : Cell) : Spreadsheet :=
  match expr cell with
  | Some e =>
      let s1 := foldl (dropReferral cid) s (rangeOver o InRefresh cid (keys (refersTo s) cid)) in
      let s2 := clearRefersTo cid s1 in
      foldl (addCellReferral cid) s2 (CellRefs e)
  | None => s
  end.

(** *** [rootReferrers] *)

(** The inner loop: enqueue every referrer not seen before. *)
Definition enqueue (st : list CellID * gset CellID) (referer : CellID)
  : list CellID * gset CellID :=
  let '(frontier, seen) := st in
  if decide (referer ∈ seen) then st
  else (frontier ++ [referer], {[referer]} ∪ seen).

(** The breadth-first loop [for len(frontier) > 0]. *)
Fixpoint bfs (o : RangeOrder) (s : Spreadsheet) (fuel : nat)
    (frontier : list CellID) (seen : gset CellID) (startCells : list CellID)
  : result (list CellID) :=
  match frontier with
  | [] => Ok startCells
  | curr :: frontier' =>
      match fuel with
      | O => NoFuel
      | S fuel' =>
          let referrers := keys (referredFrom s) curr in
          let startCells' :=
            if decide (size referrers = 0%nat) then startCells ++ [curr] else startCells in
          let '(frontier'', seen') :=
            foldl enqueue (frontier', seen) (rangeOver o InRootReferrers curr referrers) in
          bfs o s fuel' frontier'' seen' startCells'
      end
  end.

Definition rootReferrers (o : RangeOrder) (s : Spreadsheet) (cid : CellID) : result (list CellID) :=
  do startCells <- bfs o s (S (size (members (referredFrom s)))) [cid] {[cid]} [];
  match startCells with
  | [] => Ok [cid]
  | _ => Ok startCells
  end.

(** *** [topSort] *)

(** The permanent marks, the temporary marks and the output list. *)
Record marks : Type := mkMarks {
  perm : gset CellID;
  temp : gset CellID;
  sorted : list CellID
}.

(** The closure [visit]. *)
Fixpoint visit (o : RangeOrder) (s : Spreadsheet) (fuel : nat) (m : marks) (curr : CellID)
  : result marks :=
  if decide (curr ∈ perm m) then Ok m
  else if decide (curr ∈ temp m) then Err ErrCircRef
  else
    match fuel with
    | O => NoFuel
    | S fuel' =>
        let m1 := mkMarks (perm m) ({[curr]} ∪ temp m) (sorted m) in
        do m2 <- forEach (visit o s fuel') (rangeOver o InVisit curr (keys (refersTo s) curr)) m1;
        Ok (mkMarks ({[curr]} ∪ perm m2) (temp m2 ∖ {[curr]}) (sorted m2 ++ [curr]))
    end.

Definition topSort (o : RangeOrder) (s : Spreadsheet) (startNodes : list CellID)
  : result (list CellID) :=
  let fuel := size (list_to_set startNodes ∪ members (refersTo s) : gset CellID) in
  do m <- forEach (visit o s fuel) startNodes (mkMarks ∅ ∅ []);
  Ok (sorted m).

(** *** [refresh] and [SetCellValue] *)

(** One step of the last loop of [refresh]. *)
Definition reevaluate (s : Spreadsheet) (cid : CellID) : Spreadsheet :=
  match cells s !! cid with
  | Some cell =>
      mkSpreadsheet (<[cid := mkCell (eval s cid) (expr cell)]> (cells s))
        (refersTo s) (referredFrom s)
  | None => s
  end.

(** [refresh]: the sheet it leaves behind and what it returns. *)
Definition refresh (o : RangeOrder) (s : Spreadsheet) (cid : CellID) : Spreadsheet * result unit :=
  match cells s !! cid with
  | None => (s, Ok tt)
  | Some cell =>
      let s1 := updateRefs o s cid cell in
      match rootReferrers o s1 cid with
      | Ok roots =>
          match topSort o s1 roots with
          | Ok order => (foldl reevaluate s1 order, Ok tt)
          | Err e => (s1, Err e)
          | Panic => (s1, Panic)
          | NoFuel => (s1, NoFuel)
          end
      | Err e => (s1, Err e)
      | Panic => (s1, Panic)
      | NoFuel => (s1, NoFuel)
      end
  end.

Definition setCell (s : Spreadsheet) (cid : CellID) (c : Cell) : Spreadsheet :=
  mkSpreadsheet (<[cid := c]> (cells s)) (refersTo s) (referredFrom s).

(** [if _, ok := s.cells[cid]; !ok { s.cells[cid] = &Cell{} }] *)
Definition ensureCell (s : Spreadsheet) (cid : CellID) : Spreadsheet :=
  match cells s !! cid with
  | Some _ => s
  | None => setCell s cid (mkCell 0 None)
  end.

Section Sheet.
(** The parser in use (one of the two revisions). *)
Variable ParseExpr : string -> result Expr.

(** [SetCellValue]: the sheet it leaves behind and what it returns. *)
Definition SetCellValue (o : RangeOrder) (s : Spreadsheet) (cellID : string) (v : Val)
  : Spreadsheet * result unit :=
  match ParseCellID cellID with
  | Ok cid =>
      let s0 := ensureCell s cid in
      match v with
      | VInt n => refresh o (setCell s0 cid (mkCell n None)) cid
      | VString text =>
          match ParseExpr text with
          | Ok e => refresh o (setCell s0 cid (mkCell 0 (Some e))) cid
          | Err err => (s0, Err err)
          | Panic => (s0, Panic)
          | NoFuel => (s0, NoFuel)
          end
      | VOther => (s0, Err ErrValueType)
      end
  | Err e => (s, Err e)
  | Panic => (s, Panic)
  | NoFuel => (s, NoFuel)
  end.

(** A sequence of calls on a fresh sheet, each with its own iteration
    order; the outcomes are collected in call order. *)
Definition call : Type := RangeOrder * string * Val.

Definition runCall (st : Spreadsheet * list (result unit)) (c : call)
  : Spreadsheet * list (result unit) :=
  let '(o, cellID, v) := c in
  let '(s', r) := SetCellValue o (fst st) cellID v in
  (s', snd st ++ [r]).

Definition run (calls : list call) : Spreadsheet * list (result unit) :=
  foldl runCall (NewSpreadsheet, []) calls.
End Sheet.

(** ** Vocabulary of the statements *)

(** Congruence modulo 2^64, the arithmetic [wrap64] computes in. *)
Definition eqm (a b : Z) : Prop := a mod 2 ^ 64 = b mod 2 ^ 64.

(** Sheets and expressions whose integers are 64-bit values. *)
Definition sheetInRange (s : Spreadsheet) : Prop :=
  forall c cell, cells s !! c = Some cell -> in_int64 (currValue cell).

Fixpoint exprInRange (e : Expr) : Prop :=
  match e with
  | UnaryExpr X _ => exprInRange X
  | BinaryExpr X _ Y => exprInRange X /\ exprInRange Y
  | ConstExpr v => in_int64 v
  | CellRefExpr _ => True
  end.

(** A non-empty run of upper-case letters, a non-empty run of digits. *)
Definition isLetterRun (L : list rune) : bool :=
  match L with [] => false | _ => forallb isUpper L end.

Definition isDigitRun (D : list rune) : bool :=
  match D with [] => false | _ => forallb isDigit D end.

(** The value of a letter run read as a bijective base-26 numeral
    (A=1, ..., Z=26, AA=27, ...), most significant letter first. *)
Definition letterValue (L : list rune) : Z :=
  foldl (fun acc c => 26 * acc + (code c - code "A"%char + 1)) 0 L.

(** The value of a digit run read as a decimal numeral. *)
Definition digitValue (D : list rune) : Z :=
  foldl (fun acc c => 10 * acc + (code c - code "0"%char)) 0 D.

(** The value of the reversed run, least significant letter first. *)
Fixpoint leValue (rs : list rune) : Z :=
  match rs with
  | [] => 0
  | r :: tl => (code r - code "A"%char + 1) + 26 * leValue tl
  end.

Definition space : rune := " "%char.

(** The characters the tokenizer accepts. *)
Definition accepted (runeMap : rune -> option Token) (c : rune) : bool :=
  Ascii.eqb c space || isDigit c || isUpper c ||
  match runeMap c with Some _ => true | None => false end.

(** A non-empty text of accepted characters whose last one is a space. *)
Definition trailingSpace (runeMap : rune -> option Token) (rs : list rune) : Prop :=
  Forall (fun c => accepted runeMap c = true) rs /\ last rs = Some space.

(** What a reader of the sheet can tell about a cell: the expression it
    stores, if any, and its cached value (0 for a cell never written). *)
Definition cellExpr (s : Spreadsheet) (c : CellID) : option Expr :=
  match cells s !! c with
  | Some cell => expr cell
  | None => None
  end.

Definition cellValue (s : Spreadsheet) (c : CellID) : Z :=
  match cells s !! c with
  | Some cell => currValue cell
  | None => 0
  end.

(** The two adjacency maps are inverses of each other. *)
Definition inverse (s : Spreadsheet) : Prop :=
  forall a b : CellID, b ∈ keys (referredFrom s) a <-> a ∈ keys (refersTo s) b.

(** Calls given without an iteration order, and the same calls with the
    order [os i] chosen for the [i]-th one. *)
Definition withOrders (os : nat -> RangeOrder) (cs : list (string * Val)) : list call :=
  imap (fun i c => (os i, fst c, snd c)) cs.

(** Every inner map of the graph has at most one key: the iteration order
    has nothing to choose. *)
Definition smallGraph (s : Spreadsheet) : bool :=
  bool_decide (map_Forall (fun _ X => (size X <= 1)%nat) (refersTo s)) &&
  bool_decide (map_Forall (fun _ X => (size X <= 1)%nat) (referredFrom s)).

(** The graph stays small along a sequence of calls. *)
Fixpoint smallRun (ParseExpr : string -> result Expr) (s : Spreadsheet)
    (cs : list (string * Val)) : bool :=
  match cs with
  | [] => smallGraph s
  | c :: cs' =>
      smallGraph s &&
      smallRun ParseExpr (fst (SetCellValue ParseExpr defaultOrder s (fst c) (snd c))) cs'
  end.

(** The distinct cells that appear as references anywhere in an expression. *)
Fixpoint references (e : Expr) : gset CellID :=
  match e with
  | UnaryExpr X _ => references X
  | BinaryExpr X _ Y => references X ∪ references Y
  | ConstExpr _ => ∅
  | CellRefExpr Ref => {[Ref]}
  end.

(** The references of the expression a cell currently holds; none when it
    holds a literal integer or was never written. *)
Definition currentReferences (s : Spreadsheet) (c : CellID) : gset CellID :=
  match cellExpr s c with
  | Some e => references e
  | None => ∅
  end.

(** The scenarios of the package's tests. *)
Definition referenceChain : list (string * Val) :=
  [("A1", VString "=A2"); ("A2", VString "=A3"); ("A3", VString "=A4");
   ("A4", VString "=A5"); ("A5", VString "=A6"); ("A6", VString "=A7");
   ("A7", VInt 12)].

Definition selfReference : list (string * Val) := [("A1", VString "=A1")].

Definition tinyCycle : list (string * Val) :=
  [("A1", VString "=A2"); ("A2", VString "=A1")].

Definition bigCycle : list (string * Val) :=
  [("A1", VString "=A2"); ("A2", VString "=A3"); ("A3", VString "=A4");
   ("A4", VString "=A5"); ("A5", VString "=A6"); ("A6", VString "=A7");
   ("A7", VString "=A8"); ("A8", VString "=A9"); ("A9", VString "=A10");
   ("A10", VString "=A11"); ("A11", VString "=A12"); ("A12", VString "=A13");
   ("A13", VString "=A14"); ("A14", VString "=A15"); ("A15", VString "=A16");
   ("A15", VString "=A1")].

(** A parsing function that, on token lists of length at most [n], never
    exhausts its fuel and returns strictly fewer tokens than it was given. *)
Definition consumes (n : nat) (f : list Token -> result parsed) : Prop :=
  forall ts, (length ts <= n)%nat ->
    f ts <> NoFuel /\
    forall e r, f ts = Ok (e, r) -> (length r < length ts)%nat.

(** The recorded reference graph: [x] refers to [y]. *)
Definition edge (s : Spreadsheet) (x y : CellID) : Prop := y ∈ keys (refersTo s) x.

(** A list in which every cell comes after all the cells it refers to. *)
Definition dependenciesFirst (s : Spreadsheet) (l : list CellID) : Prop :=
  forall l1 x l2, l = l1 ++ x :: l2 -> keys (refersTo s) x ⊆ list_to_set l1.

(** The marks of [topSort] agree with its output so far. *)
Definition marksSound (s : Spreadsheet) (m : marks) : Prop :=
  dependenciesFirst s (sorted m) /\ perm m = list_to_set (sorted m) /\ NoDup (sorted m).

(** What a successful visit changes: the permanent marks grow, never by a
    cell that carries a temporary mark, and the temporary marks are as
    before. *)
Definition marksGrow (m m' : marks) : Prop :=
  perm m ⊆ perm m' /\ temp m' = temp m /\
  forall x, x ∈ temp m -> x ∈ perm m' -> x ∈ perm m.

(** The recorded graph has no cycle. *)
Definition acyclic (s : Spreadsheet) : Prop := forall x, ~ tc (edge s) x x.

(** The recorded edges of every cell include the references of its
    expression. *)
Definition covers (s : Spreadsheet) : Prop :=
  forall c e, cellExpr s c = Some e -> references e ⊆ keys (refersTo s) c.

(** The cached value of a formula cell is the value of its formula. *)
Definition consistentAt (s : Spreadsheet) (c : CellID) : Prop :=
  forall e, cellExpr s c = Some e -> cellValue s c = evalExpr s e.

Definition consistent (s : Spreadsheet) : Prop := forall c, consistentAt s c.

(** [CellRefs] lists every reference of the expression (it does unless a
    reference stands under a unary operator). *)
Definition listed (e : Expr) : Prop := references e ⊆ list_to_set (CellRefs e).

(** The formulas the parser yields for the text of a call are listed. *)
Definition listedVal (ParseExpr : string -> result Expr) (v : Val) : Prop :=
  match v with
  | VString text => forall e, ParseExpr text = Ok e -> listed e
  | _ => True
  end.

(** A sheet without stale values: the graph is coherent and acyclic, and
    every formula cell caches the value of its formula. *)
Definition settled (s : Spreadsheet) : Prop :=
  inverse s /\ acyclic s /\ covers s /\ consistent s.

(** [y] refers to [x]: the relation the breadth-first search follows. *)
Definition referredBy (s : Spreadsheet) (x y : CellID) : Prop := edge s y x.

(** The invariant of the breadth-first loop: a seen cell is still queued,
    or all its referrers are seen and it is a start cell if it has none. *)
Definition bfsInv (s : Spreadsheet) (frontier : list CellID) (seen : gset CellID)
    (startCells : list CellID) : Prop :=
  forall x, x ∈ seen ->
    x ∈ frontier \/
    (keys (referredFrom s) x ⊆ seen /\
     (size (keys (referredFrom s) x) = 0%nat -> x ∈ startCells)).

(** The state of the last loop of [refresh], started on [s1], once the
    cells of [done] are re-evaluated; [stable] holds of the cells whose
    value the mutation cannot reach. *)
Definition reevaluated (s1 : Spreadsheet) (stable : CellID -> Prop)
    (done : list CellID) (t : Spreadsheet) : Prop :=
  refersTo t = refersTo s1 /\
  (forall c, cellExpr t c = cellExpr s1 c) /\
  (forall c, c ∈ done -> consistentAt t c) /\
  (forall c, stable c -> cellValue t c = cellValue s1 c) /\
  (forall c, c ∉ done -> cellValue t c = cellValue s1 c).

(** A value [SetCellValue] stores: an integer, or a text the parser
    accepts. *)
Definition storable (ParseExpr : string -> result Expr) (v : Val) : Prop :=
  match v with
  | VInt _ => True
  | VString text => exists e, ParseExpr text = Ok e
  | VOther => False
  end.

(** More scenarios of the package's tests. *)
Definition basicSpreadsheet : list (string * Val) :=
  [("B1", VString "=A1+A2+A3"); ("A1", VInt 12); ("A2", VInt 12); ("A3", VInt 12);
   ("A2", VInt 24)].

Definition fibonacci : list (string * Val) :=
  [("A1", VInt 0); ("A2", VInt 1);
   ("A3", VString "=A1+A2"); ("A4", VString "=A2+A3"); ("A5", VString "=A3+A4");
   ("A6", VString "=A4+A5"); ("A7", VString "=A5+A6"); ("A8", VString "=A6+A7");
   ("A9", VString "=A7+A8"); ("A10", VString "=A8+A9"); ("A11", VString "=A9+A10");
   ("A12", VString "=A10+A11"); ("A13", VString "=A11+A12"); ("A14", VString "=A12+A13")].

(** The sheet of the first test once [B1], [A1], [A2] and [A3] are set. *)
Definition basicSheet : Spreadsheet :=
  fst (run Expr.ParseExpr (withOrders (fun _ => defaultOrder) basicSpreadsheet)).

(** The operators [evalExpr] has a case for: unary [-], binary [+ - * /]. *)
Fixpoint knownOps (e : Expr) : Prop :=
  match e with
  | UnaryExpr X Op => Op = TokenSub /\ knownOps X
  | BinaryExpr X Op Y =>
      (Op = TokenAdd \/ Op = TokenSub \/ Op = TokenMul \/ Op = TokenDiv) /\
      knownOps X /\ knownOps Y
  | ConstExpr _ => True
  | CellRefExpr _ => True
  end.

(** The errors a parser returns. *)
Definition parseError (e : error) : Prop :=
  e = ErrExprParse \/ e = ErrPlain "unexpected end of expression" \/
  e = ErrPlain "expected ')'".

(** Every error of [r] satisfies [E]. *)
Definition errorsIn {A : Type} (E : error -> Prop) (r : result A) : Prop :=
  forall e, r = Err e -> E e.

(** Every tree of [r] satisfies [Q]. *)
Definition treesIn (Q : Expr -> Prop) (r : result parsed) : Prop :=
  forall e rest, r = Ok (e, rest) -> Q e.

(** * Properties *)

(** ** Machine arithmetic *)

Lemma wrap64_id (z : Z) : in_int64 z -> wrap64 z = z.
Proof.
  unfold in_int64, min_int64, max_int64, wrap64. intros H.
  rewrite Z.mod_small by lia. lia.
Qed.

Lemma wrap64_in_int64 (z : Z) : in_int64 (wrap64 z).
Proof.
  unfold in_int64, min_int64, max_int64, wrap64.
  pose proof (Z.mod_pos_bound (z + 2 ^ 63) (2 ^ 64) ltac:(lia)). lia.
Qed.

Lemma quot_in_int64 (x y : Z) :
  in_int64 x -> y <> 0 -> ~ (x = min_int64 /\ y = -1) -> in_int64 (x ÷ y).
Proof.
  unfold in_int64, min_int64, max_int64. intros Hx Hy Hov.
  destruct (Z.eq_dec y (-1)) as [-> | Hy1].
  - assert (x ÷ -1 = - x) as ->; [| lia].
    replace (-1) with (- (1)) by lia. rewrite Z.quot_opp_r by lia.
    now rewrite Z.quot_1_r.
  - destruct (Z.eq_dec y 1) as [-> | Hy2].
    + rewrite Z.quot_1_r. lia.
    + destruct (Z.eq_dec x 0) as [-> | Hx0].
      * rewrite Z.quot_0_l; lia.
      * assert (Z.abs (x ÷ y) < Z.abs x); [| lia].
        rewrite <- Z.quot_abs by lia. apply Z.quot_lt; lia.
Qed.

(** ** Evaluation *)


Lemma zero_in_int64 : in_int64 0.
Proof. unfold in_int64, min_int64, max_int64. lia. Qed.

Lemma evalExpr_in_int64 (s : Spreadsheet) (e : Expr) :
  sheetInRange s -> exprInRange e -> in_int64 (evalExpr s e).
Proof.
  intros Hs. induction e as [X IH op | X IHX op Y IHY | v | r]; simpl; intros He.
  - destruct (String.eqb op TokenSub); auto using wrap64_in_int64, zero_in_int64.
  - repeat match goal with
           | |- context [if ?b then _ else _] => destruct b
           end; auto using wrap64_in_int64, zero_in_int64.
  - exact He.
  - destruct (cells s !! r) as [cell |] eqn:E; [eapply Hs; eauto | apply zero_in_int64].
Qed.

(** C5. Evaluating a division node yields the quotient of the two operand
    values, truncated toward zero as Go's [/] does, and yields 0 when the
    divisor evaluates to 0.  The result is taken in 64-bit arithmetic, which
    coincides with the mathematical quotient except for the one overflowing
    pair (minimum integer divided by -1).  [evalExpr] is a total function:
    no input makes it panic or return an error. *)
Theorem evalExpr_divide (s : Spreadsheet) (x y : Expr) :
  (evalExpr s y = 0 -> evalExpr s (BinaryExpr x TokenDiv y) = 0) /\
  (evalExpr s y <> 0 ->
     evalExpr s (BinaryExpr x TokenDiv y) = wrap64 (evalExpr s x ÷ evalExpr s y)) /\
  (evalExpr s y <> 0 -> in_int64 (evalExpr s x) ->
     ~ (evalExpr s x = min_int64 /\ evalExpr s y = -1) ->
     evalExpr s (BinaryExpr x TokenDiv y) = evalExpr s x ÷ evalExpr s y).
Proof.
  assert (Hstep : evalExpr s (BinaryExpr x TokenDiv y) =
                  if evalExpr s y =? 0 then 0 else wrap64 (evalExpr s x ÷ evalExpr s y))
    by reflexivity.
  rewrite Hstep. repeat split.
  - intros ->. reflexivity.
  - intros Hy. destruct (Z.eqb_spec (evalExpr s y) 0); [contradiction | reflexivity].
  - intros Hy Hx Hov. destruct (Z.eqb_spec (evalExpr s y) 0); [contradiction |].
    apply wrap64_id, quot_in_int64; assumption.
Qed.

Lemma evalExpr_divide_witness :
  evalExpr NewSpreadsheet (div (val 7) (val 0)) = 0 /\
  evalExpr NewSpreadsheet (div (val (-7)) (val 2)) = -3.
Proof.
  split.
  - apply (proj1 (evalExpr_divide NewSpreadsheet (val 7) (val 0))). reflexivity.
  - apply (proj2 (proj2 (evalExpr_divide NewSpreadsheet (val (-7)) (val 2)))).
    + simpl. lia.
    + simpl. unfold in_int64, min_int64, max_int64. lia.
    + simpl. unfold min_int64. lia.
Defined.

(** ** Parsing *)

(** Each repetition of the operator loop makes the tree parsed so far the
    left child of the new node. *)
Lemma binLoop_step validOps next fuel e token tl Y rest :
  validOps token = true -> next tl = Ok (Y, rest) ->
  binLoop validOps next (S fuel) e (token :: tl)
  = binLoop validOps next fuel (BinaryExpr e token Y) rest.
Proof. intros Hop Hnext. simpl. rewrite Hop, Hnext. reflexivity. Qed.

Lemma binLoop_stop validOps next fuel e token tl :
  validOps token = false ->
  binLoop validOps next fuel e (token :: tl) = Ok (e, token :: tl).
Proof. intros Hop. destruct fuel; simpl; rewrite Hop; reflexivity. Qed.


(** ** Cell addresses *)

(** C6. An address that is not a letter run followed by a digit run is
    accepted all the same when it contains such a piece: the pattern is
    searched for anywhere in the string. *)
Theorem ParseCellID_unanchored :
  ParseCellID "A1x" = Ok (mkCellID 0 0) /\
  ParseCellID "$B2" = Ok (mkCellID 1 1) /\
  ParseCellID "a1 Z25 !" = Ok (mkCellID 25 24).
Proof. repeat split; vm_compute; reflexivity. Qed.

(** *** Well-formed addresses *)


Lemma runes_str (l : list rune) : runes (str l) = l.
Proof. apply list_ascii_of_string_of_list_ascii. Qed.

Lemma span_all (p : rune -> bool) (l rest : list rune) :
  forallb p l = true ->
  match rest with [] => True | c :: _ => p c = false end ->
  span p (l ++ rest) = (l, rest).
Proof.
  intros Hl Hrest. induction l as [| c l IH]; simpl in *.
  - destruct rest as [| c tl]; [reflexivity |]. simpl. rewrite Hrest. reflexivity.
  - apply andb_true_iff in Hl as [Hc Hl]. rewrite Hc, (IH Hl). reflexivity.
Qed.

Lemma isDigit_not_isUpper (c : rune) : isDigit c = true -> isUpper c = false.
Proof.
  unfold isDigit, isUpper, between. change (code "0"%char) with 48.
  change (code "9"%char) with 57. change (code "A"%char) with 65.
  change (code "Z"%char) with 90. lia.
Qed.

Lemma FindStringSubmatch_wellformed (L D : list rune) :
  isLetterRun L = true -> isDigitRun D = true ->
  FindStringSubmatch (L ++ D) = Some (L, D).
Proof.
  intros HL HD.
  destruct L as [| l L]; [discriminate |].
  destruct D as [| d D]; [discriminate |].
  unfold isLetterRun in HL. unfold isDigitRun in HD.
  change (FindStringSubmatch ((l :: L) ++ d :: D)) with
    (let '(letters, r1) := span isUpper ((l :: L) ++ d :: D) in
     let '(digits, _) := span isDigit r1 in
     match letters, digits with
     | _ :: _, _ :: _ => Some (letters, digits)
     | _, _ => FindStringSubmatch (L ++ d :: D)
     end).
  rewrite (span_all isUpper (l :: L) (d :: D) HL).
  - pose proof (span_all isDigit (d :: D) [] HD I) as Hd.
    rewrite app_nil_r in Hd. rewrite Hd. reflexivity.
  - simpl in HD. apply andb_true_iff in HD as [Hd _].
    apply isDigit_not_isUpper, Hd.
Qed.

Lemma collectRunes_upper (L : list rune) :
  forallb isUpper L = true -> collectRunes L = Ok L.
Proof.
  induction L as [| c L IH]; simpl; [reflexivity |].
  intros H. apply andb_true_iff in H as [Hc HL].
  unfold isUpper, between in Hc.
  destruct (code c <? code "A"%char) eqn:E1; [lia |].
  destruct (code "Z"%char <? code c) eqn:E2; [lia |].
  simpl. rewrite (IH HL). reflexivity.
Qed.


Lemma eqm_wrap64 (z : Z) : eqm (wrap64 z) z.
Proof.
  unfold eqm, wrap64.
  rewrite <- Zminus_mod_idemp_l, Z.mod_mod by lia.
  rewrite Zminus_mod_idemp_l. f_equal. lia.
Qed.

Lemma wrap64_eqm (a b : Z) : eqm a b -> wrap64 a = wrap64 b.
Proof.
  unfold eqm, wrap64. intros H.
  rewrite <- (Zplus_mod_idemp_l a), <- (Zplus_mod_idemp_l b), H. reflexivity.
Qed.

Lemma eqm_add (a a' b b' : Z) : eqm a a' -> eqm b b' -> eqm (a + b) (a' + b').
Proof. unfold eqm. intros Ha Hb. rewrite Zplus_mod, Ha, Hb, <- Zplus_mod. reflexivity. Qed.

Lemma eqm_mul (a a' b b' : Z) : eqm a a' -> eqm b b' -> eqm (a * b) (a' * b').
Proof. unfold eqm. intros Ha Hb. rewrite Zmult_mod, Ha, Hb, <- Zmult_mod. reflexivity. Qed.

Lemma eqm_refl (a : Z) : eqm a a.
Proof. reflexivity. Qed.

Lemma eqm_trans (a b c : Z) : eqm a b -> eqm b c -> eqm a c.
Proof. unfold eqm. congruence. Qed.


Lemma decodeLoop_eqm (rs : list rune) (currBase sum : Z) :
  eqm (decodeLoop rs currBase sum) (sum + currBase * leValue rs).
Proof.
  revert currBase sum. induction rs as [| r rs IH]; intros currBase sum; simpl.
  - replace (sum + currBase * 0) with sum by lia. apply eqm_refl.
  - eapply eqm_trans; [apply IH |].
    replace (sum + currBase * (code r - code "A"%char + 1 + 26 * leValue rs))
      with ((sum + (code r - code "A"%char + 1) * currBase) + (currBase * 26) * leValue rs)
      by lia.
    apply eqm_add; [| apply eqm_mul; [apply eqm_wrap64 | apply eqm_refl]].
    eapply eqm_trans; [apply eqm_wrap64 |].
    apply eqm_add; [apply eqm_refl | apply eqm_wrap64].
Qed.

Lemma leValue_app (a b : list rune) :
  leValue (a ++ b) = leValue a + 26 ^ Z.of_nat (length a) * leValue b.
Proof.
  induction a as [| c a IH]; simpl length; simpl app; simpl leValue.
  - simpl. lia.
  - rewrite IH, Nat2Z.inj_succ, Z.pow_succ_r by lia. lia.
Qed.

Lemma letterValue_snoc (L : list rune) (c : rune) :
  letterValue (L ++ [c]) = 26 * letterValue L + (code c - code "A"%char + 1).
Proof. unfold letterValue. rewrite foldl_app. reflexivity. Qed.

Lemma leValue_rev (L : list rune) : leValue (rev L) = letterValue L.
Proof.
  induction L as [| c L IH] using rev_ind; [reflexivity |].
  rewrite rev_app_distr, letterValue_snoc. simpl. rewrite IH. lia.
Qed.

Lemma letterValue_nonneg (L : list rune) :
  forallb isUpper L = true -> 0 <= letterValue L.
Proof.
  induction L as [| c L IH] using rev_ind; intros H; [reflexivity |].
  rewrite forallb_app in H. apply andb_true_iff in H as [HL Hc].
  simpl in Hc. rewrite andb_true_r in Hc.
  rewrite letterValue_snoc. specialize (IH HL).
  unfold isUpper, between in Hc. lia.
Qed.

Lemma decimal_foldl (D : list rune) (acc : Z) :
  decimal acc D = foldl (fun acc c => 10 * acc + (code c - code "0"%char)) acc D.
Proof. revert acc. induction D as [| c D IH]; intros acc; simpl; [reflexivity | apply IH]. Qed.

Lemma digitValue_nonneg (D : list rune) :
  forallb isDigit D = true -> 0 <= digitValue D.
Proof.
  unfold digitValue.
  induction D as [| c D IH] using rev_ind; intros H; [reflexivity |].
  rewrite forallb_app in H. apply andb_true_iff in H as [HD Hc].
  simpl in Hc. rewrite andb_true_r in Hc.
  rewrite foldl_app. simpl. specialize (IH HD).
  unfold isDigit, between in Hc. lia.
Qed.

Lemma allDigits_forallb (D : list rune) : allDigits D = forallb isDigit D.
Proof. induction D as [| c D IH]; simpl; [reflexivity | rewrite IH; reflexivity]. Qed.

Lemma Atoi_digits (D : list rune) :
  isDigitRun D = true -> digitValue D <= max_int64 ->
  Atoi (str D) = Some (digitValue D).
Proof.
  intros HD Hmax. unfold Atoi. rewrite runes_str.
  destruct D as [| c D]; [discriminate |]. unfold isDigitRun in HD.
  assert (Hc : isDigit c = true) by (simpl in HD; apply andb_true_iff in HD; tauto).
  assert (Ascii.eqb c "-"%char = false) as ->.
  { apply Ascii.eqb_neq. intros ->. discriminate Hc. }
  assert (Ascii.eqb c "+"%char = false) as ->.
  { apply Ascii.eqb_neq. intros ->. discriminate Hc. }
  unfold AtoiDigits. rewrite allDigits_forallb, HD, decimal_foldl.
  fold (digitValue (c :: D)).
  destruct (Z.leb_spec (digitValue (c :: D)) max_int64); [reflexivity | lia].
Qed.




(** ** The tokenizer's unchecked indexing *)


Section TokenizerPanics.
Variable runeMap : rune -> option Token.

Local Abbreviation accepted := (accepted runeMap).
Local Abbreviation trailingSpace := (trailingSpace runeMap).


Lemma trailingSpace_tail (c : rune) (tl : list rune) :
  trailingSpace (c :: tl) -> c <> space -> trailingSpace tl.
Proof.
  intros [Hall Hlast] Hc. split; [inversion Hall; assumption |].
  destruct tl as [| c' tl]; [| exact Hlast].
  simpl in Hlast. congruence.
Qed.

Lemma skipSpaces_trailing (rs : list rune) :
  trailingSpace rs ->
  skipSpaces rs = Panic \/
  exists c tl, skipSpaces rs = Ok (c :: tl) /\ c <> space /\
               trailingSpace (c :: tl) /\ (length (c :: tl) <= length rs)%nat.
Proof.
  induction rs as [| c rs IH]; intros Hrs; [left; reflexivity |].
  simpl. destruct (Ascii.eqb_spec c " "%char) as [-> | Hc].
  - destruct rs as [| c' rs']; [left; reflexivity |].
    destruct IH as [IH | (c1 & tl & IH & Hc1 & Ht & Hlen)].
    + destruct Hrs as [Hall Hlast]. split; [inversion Hall; assumption | exact Hlast].
    + left. exact IH.
    + right. exists c1, tl. repeat split; try assumption; try apply Ht.
      simpl in *. lia.
  - right. exists c, rs. repeat split; try assumption; try apply Hrs. lia.
Qed.

Lemma span_trailing (p : rune -> bool) (c : rune) (tl a b : list rune) :
  p space = false -> p c = true -> trailingSpace (c :: tl) ->
  span p (c :: tl) = (a, b) ->
  trailingSpace b /\ (length b <= length tl)%nat.
Proof.
  intros Hsp. revert c a b. induction tl as [| c' tl IH]; intros c a b Hc Hrs Hspan.
  - destruct Hrs as [_ Hlast]. simpl in Hlast. congruence.
  - simpl in Hspan. rewrite Hc in Hspan.
    assert (Htl : trailingSpace (c' :: tl)).
    { destruct Hrs as [Hall Hlast]. split; [inversion Hall; assumption | exact Hlast]. }
    destruct (p c') eqn:Hc'.
    + destruct (span p tl) as [a' b'] eqn:Hs.
      assert (Hspan' : span p (c' :: tl) = (c' :: a', b')).
      { simpl. rewrite Hc', Hs. reflexivity. }
      destruct (IH c' (c' :: a') b' Hc' Htl Hspan') as [Hb Hlen].
      inversion Hspan; subst. split; [exact Hb | simpl; lia].
    + inversion Hspan; subst. split; [exact Htl | simpl; lia].
Qed.

Lemma tokLoop_trailing (fuel : nat) (rs : list rune) (tokens : list Token) :
  trailingSpace rs -> (length rs <= fuel)%nat ->
  tokLoop runeMap fuel rs tokens = Panic.
Proof.
  revert rs tokens. induction fuel as [| fuel IH]; intros rs tokens Hrs Hlen.
  - destruct rs; [destruct Hrs as [_ Hl]; discriminate Hl | simpl in Hlen; lia].
  - destruct rs as [| c0 rs0]; [destruct Hrs as [_ Hl]; discriminate Hl |].
    cbn [tokLoop].
    destruct (skipSpaces_trailing _ Hrs) as [-> | (c & tl & -> & Hc & Ht & Hl)];
      [reflexivity |].
    cbn [bind].
    destruct (isDigit c) eqn:Hd.
    + destruct (span isDigit (c :: tl)) as [a b] eqn:Hs.
      destruct (span_trailing isDigit c tl a b eq_refl Hd Ht Hs) as [Hb Hlb].
      apply IH; [exact Hb | simpl in *; lia].
    + destruct (isUpper c) eqn:Hu.
      * destruct (span isIdentChar (c :: tl)) as [a b] eqn:Hs.
        assert (Hi : isIdentChar c = true) by (unfold isIdentChar; rewrite Hu; apply orb_true_r).
        destruct (span_trailing isIdentChar c tl a b eq_refl Hi Ht Hs) as [Hb Hlb].
        apply IH; [exact Hb | simpl in *; lia].
      * assert (Hacc : accepted c = true) by (destruct Ht as [Hall _]; inversion Hall; assumption).
        unfold accepted in Hacc. rewrite Hd, Hu in Hacc.
        destruct (Ascii.eqb_spec c space) as [-> | _]; [congruence |].
        destruct (runeMap c) as [token |]; [| discriminate Hacc].
        apply IH; [eapply trailingSpace_tail; eassumption | simpl in *; lia].
Qed.

Lemma tokenize_empty : tokenize runeMap "" = Panic.
Proof. reflexivity. Qed.

Lemma tokenize_trailing (rs : list rune) :
  trailingSpace rs -> tokenize runeMap (str ("="%char :: rs)) = Panic.
Proof.
  intros Hrs. unfold tokenize. rewrite runes_str. simpl.
  apply tokLoop_trailing; [exact Hrs | lia].
Qed.
End TokenizerPanics.



(** ** The adjacency maps *)

Lemma keys_alter (f : gset CellID -> gset CellID) (k a : CellID) (m : gmap CellID (gset CellID)) :
  f ∅ = ∅ ->
  keys (alter f k m) a = if decide (a = k) then f (keys m a) else keys m a.
Proof.
  intros Hf. unfold keys. destruct (decide (a = k)) as [-> | Hne].
  - rewrite lookup_alter_eq. destruct (m !! k); simpl; [reflexivity | symmetry; exact Hf].
  - rewrite lookup_alter_ne by congruence. reflexivity.
Qed.

Lemma keys_insert (X : gset CellID) (k a : CellID) (m : gmap CellID (gset CellID)) :
  keys (<[k := X]> m) a = if decide (a = k) then X else keys m a.
Proof.
  unfold keys. destruct (decide (a = k)) as [-> | Hne].
  - rewrite lookup_insert_eq. reflexivity.
  - rewrite lookup_insert_ne by congruence. reflexivity.
Qed.

Lemma keys_empty (a : CellID) : keys ∅ a = ∅.
Proof. reflexivity. Qed.

(** The loop that unsets the old referrals. *)
Lemma dropReferrals_cells cid l s :
  cells (foldl (dropReferral cid) s l) = cells s /\
  refersTo (foldl (dropReferral cid) s l) = refersTo s.
Proof.
  revert s. induction l as [| r l IH]; intros s; simpl; [auto |].
  destruct (IH (dropReferral cid s r)) as [-> ->]. auto.
Qed.

Lemma dropReferrals_keys cid l s a :
  keys (referredFrom (foldl (dropReferral cid) s l)) a
  = if decide (a ∈ l) then keys (referredFrom s) a ∖ {[cid]} else keys (referredFrom s) a.
Proof.
  revert s. induction l as [| r l IH]; intros s; simpl.
  - destruct (decide (a ∈ [])) as [H | _]; [inversion H | reflexivity].
  - rewrite IH. simpl. rewrite keys_alter by set_solver.
    destruct (decide (a ∈ l)), (decide (a = r)), (decide (a ∈ r :: l)); set_solver.
Qed.

Lemma addCellReferrals_cells cid l s :
  cells (foldl (addCellReferral cid) s l) = cells s.
Proof.
  revert s. induction l as [| r l IH]; intros s; simpl; [auto |].
  rewrite IH. reflexivity.
Qed.

Lemma addCellReferral_inverse cid s ref :
  inverse s -> inverse (addCellReferral cid s ref).
Proof.
  unfold inverse. intros H a b. simpl. rewrite !keys_insert.
  specialize (H a b).
  destruct (decide (a = ref)), (decide (b = cid)); subst; set_solver.
Qed.

Lemma addCellReferrals_inverse cid l s :
  inverse s -> inverse (foldl (addCellReferral cid) s l).
Proof.
  revert s. induction l as [| r l IH]; intros s H; simpl; [exact H |].
  apply IH, addCellReferral_inverse, H.
Qed.

Lemma rangeOver_elem (o : RangeOrder) st c (X : gset CellID) (a : CellID) :
  a ∈ rangeOver o st c X <-> a ∈ X.
Proof. rewrite (rangeOver_perm o st c X). apply elem_of_elements. Qed.

Lemma updateRefs_cells o s cid cell : cells (updateRefs o s cid cell) = cells s.
Proof.
  unfold updateRefs. destruct (expr cell); [| reflexivity].
  rewrite addCellReferrals_cells. simpl. apply dropReferrals_cells.
Qed.

Lemma updateRefs_inverse o s cid cell :
  inverse s -> inverse (updateRefs o s cid cell).
Proof.
  intros H. unfold updateRefs. destruct (expr cell) as [e |]; [| exact H].
  apply addCellReferrals_inverse. intros a b. simpl.
  rewrite dropReferrals_keys, keys_alter by reflexivity.
  destruct (dropReferrals_cells cid (rangeOver o InRefresh cid (keys (refersTo s) cid)) s)
    as [_ ->].
  specialize (H a b).
  destruct (decide (a ∈ rangeOver o InRefresh cid (keys (refersTo s) cid))) as [Hin | Hin];
    rewrite rangeOver_elem in Hin;
    destruct (decide (b = cid)); subst; set_solver.
Qed.

Lemma reevaluate_graph l s :
  refersTo (foldl reevaluate s l) = refersTo s /\
  referredFrom (foldl reevaluate s l) = referredFrom s.
Proof.
  revert s. induction l as [| c l IH]; intros s; simpl; [auto |].
  destruct (IH (reevaluate s c)) as [-> ->].
  unfold reevaluate. destruct (cells s !! c); auto.
Qed.

Lemma inverse_graph s s' :
  refersTo s' = refersTo s -> referredFrom s' = referredFrom s ->
  inverse s -> inverse s'.
Proof. unfold inverse. intros -> ->. auto. Qed.

Lemma refresh_inverse o s cid : inverse s -> inverse (fst (refresh o s cid)).
Proof.
  intros H. unfold refresh. destruct (cells s !! cid) as [cell |]; [| exact H].
  pose proof (updateRefs_inverse o s cid cell H) as H1.
  destruct (rootReferrers o (updateRefs o s cid cell) cid) as [roots | | |]; try exact H1.
  destruct (topSort o (updateRefs o s cid cell) roots) as [order | | |]; try exact H1.
  simpl. destruct (reevaluate_graph order (updateRefs o s cid cell)) as [E1 E2].
  eapply inverse_graph; eassumption.
Qed.

Lemma ensureCell_graph s cid :
  refersTo (ensureCell s cid) = refersTo s /\
  referredFrom (ensureCell s cid) = referredFrom s.
Proof. unfold ensureCell. destruct (cells s !! cid); auto. Qed.

Lemma SetCellValue_inverse ParseExpr o s cellID v :
  inverse s -> inverse (fst (SetCellValue ParseExpr o s cellID v)).
Proof.
  intros H. unfold SetCellValue.
  destruct (ParseCellID cellID) as [cid | | |]; try exact H.
  assert (H0 : inverse (ensureCell s cid)).
  { destruct (ensureCell_graph s cid). eapply inverse_graph; eassumption. }
  destruct v as [n | text |]; [| | exact H0].
  - apply refresh_inverse. exact H0.
  - destruct (ParseExpr text) as [e | | |]; try exact H0.
    apply refresh_inverse. exact H0.
Qed.

Lemma NewSpreadsheet_inverse : inverse NewSpreadsheet.
Proof. intros a b. simpl. rewrite !keys_empty. set_solver. Qed.

Lemma runCall_fst ParseExpr st c :
  fst (runCall ParseExpr st c)
  = fst (SetCellValue ParseExpr (fst (fst c)) (fst st) (snd (fst c)) (snd c)).
Proof.
  destruct c as [[o cellID] v]. unfold runCall. simpl.
  destruct (SetCellValue ParseExpr o (fst st) cellID v). reflexivity.
Qed.

(** C4. After any sequence of [SetCellValue] calls on a fresh sheet,
    whatever they return and whatever order the maps are iterated in, the
    two adjacency maps are structural inverses: [b] is in [referredFrom[a]]
    exactly when [a] is in [refersTo[b]]. *)
Theorem run_inverse (ParseExpr : string -> result Expr) (calls : list (call)) :
  forall a b : CellID,
    b ∈ keys (referredFrom (fst (run ParseExpr calls))) a
    <-> a ∈ keys (refersTo (fst (run ParseExpr calls))) b.
Proof.
  change (inverse (fst (run ParseExpr calls))). unfold run.
  assert (Hgen : forall st, inverse (fst st) ->
                            inverse (fst (foldl (runCall ParseExpr) st calls))).
  { induction calls as [| c calls IH]; intros st Hst; simpl; [exact Hst |].
    apply IH. rewrite runCall_fst. apply SetCellValue_inverse, Hst. }
  apply Hgen, NewSpreadsheet_inverse.
Qed.

(** ** Graphs on which the iteration order has no choice *)

Lemma rangeOver_small (o : RangeOrder) st c (X : gset CellID) :
  (size X <= 1)%nat -> rangeOver o st c X = elements X.
Proof.
  intros Hsz. pose proof (rangeOver_perm o st c X) as Hp.
  assert (Hlen : (length (elements X) <= 1)%nat) by exact Hsz.
  destruct (elements X) as [| x [| y l]]; simpl in Hlen; [| | lia].
  - apply Permutation_nil_r. exact Hp.
  - apply Permutation_singleton_r. exact Hp.
Qed.

Lemma smallGraph_keys (s : Spreadsheet) :
  smallGraph s = true ->
  forall c, (size (keys (refersTo s) c) <= 1)%nat /\ (size (keys (referredFrom s) c) <= 1)%nat.
Proof.
  unfold smallGraph. intros H c. apply andb_true_iff in H as [H1 H2].
  apply bool_decide_eq_true in H1, H2. unfold keys. split.
  - destruct (refersTo s !! c) as [X |] eqn:E; simpl; [exact (H1 c X E) |].
    change (size (∅ : gset CellID) <= 1)%nat. rewrite size_empty. lia.
  - destruct (referredFrom s !! c) as [X |] eqn:E; simpl; [exact (H2 c X E) |].
    change (size (∅ : gset CellID) <= 1)%nat. rewrite size_empty. lia.
Qed.

Lemma forEach_ext {A S : Type} (f g : S -> A -> result S) (l : list A) (s : S) :
  (forall s a, f s a = g s a) -> forEach f l s = forEach g l s.
Proof.
  intros H. revert s. induction l as [| a l IH]; intros s; simpl; [reflexivity |].
  rewrite H. destruct (g s a); simpl; auto.
Qed.

Lemma visit_small o s fuel m curr :
  smallGraph s = true -> visit o s fuel m curr = visit defaultOrder s fuel m curr.
Proof.
  intros Hs. revert m curr. induction fuel as [| fuel IH]; intros m curr; [reflexivity |].
  simpl. rewrite (rangeOver_small o) by apply (smallGraph_keys s Hs).
  rewrite (forEach_ext (visit o s fuel) (visit defaultOrder s fuel)) by exact IH.
  reflexivity.
Qed.

Lemma topSort_small o s roots :
  smallGraph s = true -> topSort o s roots = topSort defaultOrder s roots.
Proof.
  intros Hs. unfold topSort.
  erewrite forEach_ext; [reflexivity |].
  intros m a. apply visit_small, Hs.
Qed.

Lemma bfs_small o s fuel frontier seen startCells :
  smallGraph s = true ->
  bfs o s fuel frontier seen startCells = bfs defaultOrder s fuel frontier seen startCells.
Proof.
  intros Hs. revert frontier seen startCells.
  induction fuel as [| fuel IH]; intros frontier seen startCells; [reflexivity |].
  destruct frontier as [| curr frontier]; [reflexivity |].
  simpl. rewrite (rangeOver_small o) by apply (smallGraph_keys s Hs).
  destruct (foldl enqueue (frontier, seen) (elements (keys (referredFrom s) curr))).
  apply IH.
Qed.

Lemma updateRefs_small o s cid cell :
  smallGraph s = true -> updateRefs o s cid cell = updateRefs defaultOrder s cid cell.
Proof.
  intros Hs. unfold updateRefs. destruct (expr cell); [| reflexivity].
  rewrite (rangeOver_small o) by apply (smallGraph_keys s Hs). reflexivity.
Qed.

Lemma smallGraph_graph s s' :
  refersTo s' = refersTo s -> referredFrom s' = referredFrom s ->
  smallGraph s' = smallGraph s.
Proof. unfold smallGraph. intros -> ->. reflexivity. Qed.

Lemma refresh_graph o s cid :
  match cells s !! cid with
  | Some cell =>
      refersTo (fst (refresh o s cid)) = refersTo (updateRefs o s cid cell) /\
      referredFrom (fst (refresh o s cid)) = referredFrom (updateRefs o s cid cell)
  | None => fst (refresh o s cid) = s
  end.
Proof.
  unfold refresh. destruct (cells s !! cid) as [cell |]; [| reflexivity].
  destruct (rootReferrers o (updateRefs o s cid cell) cid) as [roots | | |]; auto.
  destruct (topSort o (updateRefs o s cid cell) roots) as [order | | |]; auto.
  simpl. apply reevaluate_graph.
Qed.

Lemma refresh_small o s cid :
  smallGraph s = true -> smallGraph (fst (refresh defaultOrder s cid)) = true ->
  refresh o s cid = refresh defaultOrder s cid.
Proof.
  intros Hs Hs'. pose proof (refresh_graph defaultOrder s cid) as Hg.
  unfold refresh in *. destruct (cells s !! cid) as [cell |]; [| reflexivity].
  destruct Hg as [Hg1 Hg2]. rewrite (smallGraph_graph _ _ Hg1 Hg2) in Hs'.
  rewrite (updateRefs_small o) by exact Hs.
  unfold rootReferrers. rewrite (bfs_small o) by exact Hs'.
  destruct (bfs defaultOrder _ _ _ _ _) as [startCells | | |]; simpl; try reflexivity.
  destruct startCells; rewrite (topSort_small o) by exact Hs'; reflexivity.
Qed.

Lemma SetCellValue_small ParseExpr o s cellID v :
  smallGraph s = true ->
  smallGraph (fst (SetCellValue ParseExpr defaultOrder s cellID v)) = true ->
  SetCellValue ParseExpr o s cellID v = SetCellValue ParseExpr defaultOrder s cellID v.
Proof.
  intros Hs Hs'. unfold SetCellValue in *.
  destruct (ParseCellID cellID) as [cid | | |]; try reflexivity.
  assert (H0 : forall c, smallGraph (setCell (ensureCell s cid) cid c) = true).
  { intros c. rewrite <- Hs. apply smallGraph_graph; simpl; apply ensureCell_graph. }
  destruct v as [n | text |]; [| | reflexivity].
  - apply refresh_small; [apply H0 | exact Hs'].
  - destruct (ParseExpr text) as [e | | |]; try reflexivity.
    apply refresh_small; [apply H0 | exact Hs'].
Qed.

Lemma smallRun_start ParseExpr s cs : smallRun ParseExpr s cs = true -> smallGraph s = true.
Proof. destruct cs; simpl; [auto |]. intros H. apply andb_true_iff in H. tauto. Qed.

(** On a run whose graphs stay small, every choice of iteration orders
    gives the run of the default order. *)
Lemma run_small ParseExpr (os : nat -> RangeOrder) (cs : list (string * Val)) :
  smallRun ParseExpr NewSpreadsheet cs = true ->
  run ParseExpr (withOrders os cs) = run ParseExpr (withOrders (fun _ => defaultOrder) cs).
Proof.
  unfold run, withOrders. generalize (@nil (result unit)). generalize NewSpreadsheet.
  revert os. induction cs as [| c cs IH]; intros os s rs Hrun; [reflexivity |].
  simpl in Hrun. apply andb_true_iff in Hrun as [Hs Hrun].
  cbn [imap foldl]. unfold runCall at 2 4. cbn [fst snd].
  rewrite (SetCellValue_small ParseExpr (os 0%nat))
    by (try exact Hs; eapply smallRun_start; exact Hrun).
  destruct (SetCellValue ParseExpr defaultOrder s (fst c) (snd c)) as [s' r] eqn:E.
  simpl in Hrun. apply (IH (fun i => os (S i)) s' (rs ++ [r]) Hrun).
Qed.

(** ** The scenarios of the tests, under every iteration order *)

(** The chain [A1 = A2 = ... = A7 = 12]: every call succeeds and [A1]
    reads 12. *)
Lemma referenceChain_value (os : nat -> RangeOrder) :
  (let '(s, rs) := run Expr.ParseExpr (withOrders os referenceChain) in
   rs = repeat (Ok tt) 7 /\ GetCellValue s "A1" = Ok 12) /\
  (let '(s, rs) := run ExprParen.ParseExpr (withOrders os referenceChain) in
   rs = repeat (Ok tt) 7 /\ GetCellValue s "A1" = Ok 12).
Proof.
  split; (rewrite run_small by (vm_compute; reflexivity)); vm_compute; auto.
Qed.

(** The three cycles of the tests are rejected with [ErrCircRef] by the
    call that closes them. *)
Lemma cycles_rejected (os : nat -> RangeOrder) :
  (snd (run Expr.ParseExpr (withOrders os selfReference)) = [Err ErrCircRef] /\
   snd (run Expr.ParseExpr (withOrders os tinyCycle)) = [Ok tt; Err ErrCircRef] /\
   snd (run Expr.ParseExpr (withOrders os bigCycle)) = repeat (Ok tt) 15 ++ [Err ErrCircRef]) /\
  (snd (run ExprParen.ParseExpr (withOrders os selfReference)) = [Err ErrCircRef] /\
   snd (run ExprParen.ParseExpr (withOrders os tinyCycle)) = [Ok tt; Err ErrCircRef] /\
   snd (run ExprParen.ParseExpr (withOrders os bigCycle)) = repeat (Ok tt) 15 ++ [Err ErrCircRef]).
Proof.
  repeat split; (rewrite run_small by (vm_compute; reflexivity)); vm_compute; reflexivity.
Qed.

(** ** References under a unary minus, and literals written over formulas *)

(** C1. A reference under a unary minus adds no edge, so the dependent cell
    is not recomputed: after [A2 = "=-A1"] and [A1 = 5], both successful,
    [A2] still reads 0 although its formula now evaluates to -5. *)
Theorem stale_after_unary_reference (os : nat -> RangeOrder) :
  (let '(s, rs) := run Expr.ParseExpr
                     (withOrders os [("A2", VString "=-A1"); ("A1", VInt 5)]) in
   rs = [Ok tt; Ok tt] /\
   cellExpr s (mkCellID 0 1) = Some (neg (cellRef 0 0)) /\
   GetCellValue s "A1" = Ok 5 /\ GetCellValue s "A2" = Ok 0 /\
   evalExpr s (neg (cellRef 0 0)) = -5) /\
  (let '(s, rs) := run ExprParen.ParseExpr
                     (withOrders os [("A2", VString "=-A1"); ("A1", VInt 5)]) in
   rs = [Ok tt; Ok tt] /\
   cellExpr s (mkCellID 0 1) = Some (neg (cellRef 0 0)) /\
   GetCellValue s "A1" = Ok 5 /\ GetCellValue s "A2" = Ok 0 /\
   evalExpr s (neg (cellRef 0 0)) = -5).
Proof.
  split; (rewrite run_small by (vm_compute; reflexivity)); vm_compute; auto 10.
Qed.

(** C2. A self-reference under a unary minus is not detected: on a fresh
    sheet [A1 = "=-A1"] succeeds and stores the formula. *)
Theorem unary_self_reference_accepted (os : nat -> RangeOrder) :
  (let '(s, rs) := run Expr.ParseExpr (withOrders os [("A1", VString "=-A1")]) in
   rs = [Ok tt] /\ cellExpr s (mkCellID 0 0) = Some (neg (cellRef 0 0)) /\
   mkCellID 0 0 ∈ references (neg (cellRef 0 0))) /\
  (let '(s, rs) := run ExprParen.ParseExpr (withOrders os [("A1", VString "=-A1")]) in
   rs = [Ok tt] /\ cellExpr s (mkCellID 0 0) = Some (neg (cellRef 0 0)) /\
   mkCellID 0 0 ∈ references (neg (cellRef 0 0))).
Proof.
  split; (rewrite run_small by (vm_compute; reflexivity));
    (split; [vm_compute; reflexivity | split; [vm_compute; reflexivity |]]);
    simpl; set_solver.
Qed.

(** C3. [refersTo] departs from the references of the current expression
    in two ways: a literal written over a formula keeps the formula's
    edges, and a reference under a unary minus gets no edge. *)
Theorem refersTo_not_current_references (os : nat -> RangeOrder) :
  (let '(s, rs) := run Expr.ParseExpr
                     (withOrders os [("A1", VString "=A2"); ("A1", VInt 5)]) in
   rs = [Ok tt; Ok tt] /\ cellExpr s (mkCellID 0 0) = None /\
   currentReferences s (mkCellID 0 0) = ∅ /\
   keys (refersTo s) (mkCellID 0 0) = {[mkCellID 0 1]}) /\
  (let '(s, rs) := run Expr.ParseExpr (withOrders os [("A2", VString "=-A1")]) in
   rs = [Ok tt] /\ currentReferences s (mkCellID 0 1) = {[mkCellID 0 0]} /\
   keys (refersTo s) (mkCellID 0 1) = ∅).
Proof.
  split; (rewrite run_small by (vm_compute; reflexivity)).
  - repeat split; vm_compute; reflexivity.
  - repeat split; vm_compute; reflexivity.
Qed.

(** ** A formula that fails to parse *)

Lemma ensureCell_cellExpr s cid c : cellExpr (ensureCell s cid) c = cellExpr s c.
Proof.
  unfold ensureCell, cellExpr. destruct (cells s !! cid) as [cell |] eqn:E; [reflexivity |].
  simpl. destruct (decide (c = cid)) as [-> | Hne].
  - rewrite lookup_insert_eq, E. reflexivity.
  - rewrite lookup_insert_ne by congruence. reflexivity.
Qed.

Lemma ensureCell_cellValue s cid c : cellValue (ensureCell s cid) c = cellValue s c.
Proof.
  unfold ensureCell, cellValue. destruct (cells s !! cid) as [cell |] eqn:E; [reflexivity |].
  simpl. destruct (decide (c = cid)) as [-> | Hne].
  - rewrite lookup_insert_eq, E. reflexivity.
  - rewrite lookup_insert_ne by congruence. reflexivity.
Qed.

Lemma GetCellValue_cellValue s a :
  GetCellValue s a = do cid <- ParseCellID a; Ok (cellValue s cid).
Proof.
  unfold GetCellValue, cellValue. destruct (ParseCellID a) as [cid | | |]; simpl; try reflexivity.
  destruct (cells s !! cid); reflexivity.
Qed.

(** C9. When the formula text fails to parse, [SetCellValue] returns that
    parse error and leaves the graph edges, the stored expression and the
    cached value of every cell, the targeted one included, as they were; a
    targeted cell that was already stored leaves the whole sheet unchanged
    (one that was not is allocated empty, with value 0 and no expression). *)
Theorem SetCellValue_parse_error (ParseExpr : string -> result Expr) (o : RangeOrder)
    (s : Spreadsheet) (cellID text : string) (cid : CellID) (err : error) :
  ParseCellID cellID = Ok cid ->
  ParseExpr text = Err err ->
  snd (SetCellValue ParseExpr o s cellID (VString text)) = Err err /\
  refersTo (fst (SetCellValue ParseExpr o s cellID (VString text))) = refersTo s /\
  referredFrom (fst (SetCellValue ParseExpr o s cellID (VString text))) = referredFrom s /\
  (forall c, cellExpr (fst (SetCellValue ParseExpr o s cellID (VString text))) c = cellExpr s c /\
             cellValue (fst (SetCellValue ParseExpr o s cellID (VString text))) c = cellValue s c) /\
  (forall a, GetCellValue (fst (SetCellValue ParseExpr o s cellID (VString text))) a
             = GetCellValue s a) /\
  (is_Some (cells s !! cid) -> fst (SetCellValue ParseExpr o s cellID (VString text)) = s).
Proof.
  intros Hcid Hparse. unfold SetCellValue. rewrite Hcid, Hparse. simpl.
  destruct (ensureCell_graph s cid) as [E1 E2].
  repeat split; try assumption.
  - apply ensureCell_cellExpr.
  - apply ensureCell_cellValue.
  - intros a. rewrite !GetCellValue_cellValue.
    destruct (ParseCellID a); simpl; try reflexivity.
    rewrite ensureCell_cellValue. reflexivity.
  - intros [cell Hcell]. unfold ensureCell. rewrite Hcell. reflexivity.
Qed.

Lemma SetCellValue_parse_error_witness :
  snd (SetCellValue Expr.ParseExpr defaultOrder NewSpreadsheet "A1" (VString "=A1*"))
  = Err ErrExprParse.
Proof.
  apply (SetCellValue_parse_error Expr.ParseExpr defaultOrder NewSpreadsheet
           "A1" "=A1*" (mkCellID 0 0) ErrExprParse); vm_compute; reflexivity.
Defined.

(** ** Texts on which the tokenizer panics *)

Lemma bind_Panic {A B : Type} (k : A -> result B) : bind Panic k = Panic.
Proof. reflexivity. Qed.



(** ** The fuel of the tokenizer and of the parsers is never exhausted *)

Lemma skipSpaces_length (rs rs1 : list rune) :
  skipSpaces rs = Ok rs1 -> (length rs1 <= length rs)%nat.
Proof.
  revert rs1. induction rs as [| c rs IH]; intros rs1; simpl; [discriminate |].
  destruct (Ascii.eqb c " "%char).
  - intros H. specialize (IH _ H). lia.
  - intros [= <-]. simpl. lia.
Qed.

Lemma skipSpaces_NoFuel (rs : list rune) : skipSpaces rs <> NoFuel.
Proof.
  induction rs as [| c rs IH]; simpl; [discriminate |].
  destruct (Ascii.eqb c " "%char); [exact IH | discriminate].
Qed.

Lemma span_length (p : rune -> bool) (l a b : list rune) :
  span p l = (a, b) -> (length a + length b = length l)%nat.
Proof.
  revert a b. induction l as [| c l IH]; intros a b; simpl.
  - intros [= <- <-]. reflexivity.
  - destruct (p c).
    + destruct (span p l) as [a' b'] eqn:E. intros [= <- <-].
      specialize (IH _ _ eq_refl). simpl. lia.
    + intros [= <- <-]. reflexivity.
Qed.

Lemma span_head (p : rune -> bool) (c : rune) (tl a b : list rune) :
  p c = true -> span p (c :: tl) = (a, b) -> (length b <= length tl)%nat.
Proof.
  intros Hc Hs. pose proof (span_length _ _ _ _ Hs) as Hlen.
  simpl in Hs. rewrite Hc in Hs. destruct (span p tl). inversion Hs; subst.
  simpl in Hlen. lia.
Qed.

Lemma tokLoop_fuel runeMap (fuel : nat) (rs : list rune) (tokens : list Token) :
  (length rs <= fuel)%nat -> tokLoop runeMap fuel rs tokens <> NoFuel.
Proof.
  revert rs tokens. induction fuel as [| fuel IH]; intros rs tokens Hlen.
  - destruct rs; [discriminate | simpl in Hlen; lia].
  - destruct rs as [| c0 rs0]; [discriminate |]. cbn [tokLoop].
    pose proof (skipSpaces_length (c0 :: rs0)) as Hsk.
    pose proof (skipSpaces_NoFuel (c0 :: rs0)) as Hnf.
    destruct (skipSpaces (c0 :: rs0)) as [rs1 | | |]; cbn [bind]; try discriminate;
      [| congruence].
    specialize (Hsk rs1 eq_refl).
    destruct rs1 as [| c tl]; [discriminate |].
    destruct (isDigit c) eqn:Hd.
    + destruct (span isDigit (c :: tl)) as [a b] eqn:Hs.
      pose proof (span_head _ _ _ _ _ Hd Hs). apply IH. simpl in *. lia.
    + destruct (isUpper c) eqn:Hu.
      * destruct (span isIdentChar (c :: tl)) as [a b] eqn:Hs.
        assert (Hi : isIdentChar c = true) by (unfold isIdentChar; rewrite Hu; apply orb_true_r).
        pose proof (span_head _ _ _ _ _ Hi Hs). apply IH. simpl in *. lia.
      * destruct (runeMap c); [| discriminate]. apply IH. simpl in *. lia.
Qed.

Lemma tokenize_fuel runeMap (s : string) : tokenize runeMap s <> NoFuel.
Proof.
  unfold tokenize. destruct (runes s) as [| c tl]; [discriminate |].
  destruct (negb (Ascii.eqb c "="%char)); [discriminate |].
  apply tokLoop_fuel. lia.
Qed.

Lemma collectRunes_returns (l : list rune) :
  collectRunes l <> Panic /\ collectRunes l <> NoFuel.
Proof.
  induction l as [| c l [IH1 IH2]]; simpl; [split; discriminate |].
  destruct ((code c <? code "A"%char) || (code "Z"%char <? code c)); [split; discriminate |].
  destruct (collectRunes l); simpl; split; congruence.
Qed.

(** [ParseCellID] returns a cell or [ErrParseCellID]. *)
Lemma ParseCellID_returns (s : string) :
  (exists cid, ParseCellID s = Ok cid) \/ ParseCellID s = Err ErrParseCellID.
Proof.
  unfold ParseCellID. destruct (FindStringSubmatch (runes s)) as [[rowExpr colExpr] |]; [| auto].
  unfold decodeRowExpr. destruct (collectRunes_returns rowExpr) as [H1 H2].
  destruct (collectRunes rowExpr); simpl; try congruence; [| auto].
  destruct (Atoi (str colExpr)); eauto.
Qed.

Lemma consumes_le (n m : nat) f : (m <= n)%nat -> consumes n f -> consumes m f.
Proof. intros Hle H ts Hts. apply H. lia. Qed.

Lemma binLoop_fuel validOps next (n fuel : nat) (e : Expr) (rest : list Token) :
  consumes n next -> (length rest <= S n)%nat -> (length rest <= fuel)%nat ->
  binLoop validOps next fuel e rest <> NoFuel /\
  forall e' r, binLoop validOps next fuel e rest = Ok (e', r) ->
               (length r <= length rest)%nat.
Proof.
  intros Hnext. revert e rest. induction fuel as [| fuel IH]; intros e rest Hn Hfuel.
  - destruct rest; [| simpl in Hfuel; lia]. simpl. split; [discriminate |].
    intros e' r [= <- <-]. reflexivity.
  - destruct rest as [| token tl]; simpl.
    + split; [discriminate |]. intros e' r [= <- <-]. reflexivity.
    + destruct (validOps token).
      * simpl in Hn, Hfuel. destruct (Hnext tl ltac:(lia)) as [Hnf Hsh].
        destruct (next tl) as [[Y rest'] | | |]; cbn [bind]; try congruence;
          try (split; [discriminate | discriminate]).
        specialize (Hsh Y rest' eq_refl).
        destruct (IH (BinaryExpr e token Y) rest' ltac:(lia) ltac:(lia)) as [IH1 IH2].
        split; [exact IH1 |]. intros e' r Hr. specialize (IH2 e' r Hr). lia.
      * split; [discriminate |]. intros e' r [= <- <-]. reflexivity.
Qed.

Lemma parseBinExpr_consumes validOps next (n : nat) :
  consumes n next -> consumes n (fun tokens => parseBinExpr tokens validOps next).
Proof.
  intros Hnext ts Hts. unfold parseBinExpr.
  destruct (Hnext ts Hts) as [Hnf Hsh].
  destruct (next ts) as [[e rest] | | |]; cbn [bind]; try congruence;
    try (split; [discriminate | discriminate]).
  specialize (Hsh e rest eq_refl).
  destruct (binLoop_fuel validOps next n (length rest) e rest Hnext ltac:(lia) ltac:(lia))
    as [H1 H2].
  split; [exact H1 |]. intros e' r Hr. specialize (H2 e' r Hr). lia.
Qed.

Lemma parsePrimary2_consumes (n : nat) : consumes n Expr.parsePrimary2.
Proof.
  intros ts _. unfold Expr.parsePrimary2. destruct ts as [| t tl].
  - split; discriminate.
  - destruct (ParseCellID t).
    1: split; [discriminate | intros ? ? [= <- <-]; simpl; lia].
    all: destruct (Atoi t);
      (split; [discriminate | try discriminate; intros ? ? [= <- <-]; simpl; lia]).
Qed.

Lemma parseUnary2_consumes (n : nat) : consumes n Expr.parseUnary2.
Proof.
  intros ts _. induction ts as [| t tl IH].
  - split; discriminate.
  - cbn [Expr.parseUnary2]. destruct (String.eqb t TokenSub).
    + destruct IH as [IH1 IH2].
      destruct (Expr.parseUnary2 tl) as [[X rest] | | |]; cbn [bind]; try congruence;
        try (split; [discriminate | discriminate]).
      split; [discriminate |]. intros ? ? [= <- <-].
      specialize (IH2 X rest eq_refl). simpl. lia.
    + apply (parsePrimary2_consumes (length (t :: tl))). lia.
Qed.

(** The parser without parentheses never exhausts its fuel. *)
Lemma Expr_ParseExpr_fuel (s : string) : Expr.ParseExpr s <> NoFuel.
Proof.
  unfold Expr.ParseExpr, Expr.tokenize.
  pose proof (tokenize_fuel Expr.runeMap s) as Ht.
  destruct (tokenize Expr.runeMap s) as [tokens | | |]; cbn [bind]; try congruence.
  unfold Expr.parseExpr, Expr.parseTerm.
  destruct (parseBinExpr_consumes isTermTok Expr.parseFactor2 (length tokens)
              (parseBinExpr_consumes isFactorTok Expr.parseUnary2 (length tokens)
                 (parseUnary2_consumes (length tokens))) tokens ltac:(lia)) as [Hnf _].
  destruct (parseBinExpr tokens isTermTok Expr.parseFactor2) as [[e rest] | | |];
    cbn [bind]; try congruence.
  destruct rest; discriminate.
Qed.

Lemma parsePrimary_consumes_0 rec : consumes 0 (ExprParen.parsePrimary rec).
Proof.
  intros ts Hts. destruct ts; [| simpl in Hts; lia]. split; discriminate.
Qed.

Lemma parsePrimary_consumes_S rec (n : nat) :
  consumes n rec -> consumes (S n) (ExprParen.parsePrimary rec).
Proof.
  intros Hrec ts Hts. unfold ExprParen.parsePrimary. destruct ts as [| t tl].
  - split; discriminate.
  - assert (Hparen :
      (if String.eqb t TokenLPar
       then do (expr, rest) <- rec tl;
            match rest with
            | [] => Err (ErrPlain "expected ')'")
            | r :: rest' =>
                if String.eqb r TokenRPar then Ok (expr, rest')
                else Err (ErrPlain "expected ')'")
            end
       else Err ErrExprParse) <> NoFuel /\
      forall e r,
        (if String.eqb t TokenLPar
         then do (expr, rest) <- rec tl;
              match rest with
              | [] => Err (ErrPlain "expected ')'")
              | r :: rest' =>
                  if String.eqb r TokenRPar then Ok (expr, rest')
                  else Err (ErrPlain "expected ')'")
              end
         else Err ErrExprParse) = Ok (e, r) -> (length r < length (t :: tl))%nat).
    { destruct (String.eqb t TokenLPar); [| split; discriminate].
      simpl in Hts. destruct (Hrec tl ltac:(lia)) as [Hnf Hsh].
      destruct (rec tl) as [[e0 rest] | | |]; cbn [bind]; try congruence;
        try (split; [discriminate | discriminate]).
      specialize (Hsh e0 rest eq_refl).
      destruct rest as [| r0 rest']; [split; discriminate |].
      destruct (String.eqb r0 TokenRPar); [| split; discriminate].
      split; [discriminate |]. intros ? ? [= <- <-]. simpl in *. lia. }
    destruct (ParseCellID t).
    1: split; [discriminate | intros ? ? [= <- <-]; simpl; lia].
    all: destruct (Atoi t);
      [split; [discriminate | intros ? ? [= <- <-]; simpl; lia] | exact Hparen].
Qed.

Lemma parseUnary_consumes rec (n : nat) :
  consumes n (ExprParen.parsePrimary rec) -> consumes n (ExprParen.parseUnary rec).
Proof.
  intros Hprim ts. induction ts as [| t tl IH]; intros Hts.
  - split; discriminate.
  - cbn [ExprParen.parseUnary]. destruct (String.eqb t TokenSub).
    + simpl in Hts. destruct (IH ltac:(lia)) as [IH1 IH2].
      destruct (ExprParen.parseUnary rec tl) as [[X rest] | | |]; cbn [bind];
        try congruence; try (split; [discriminate | discriminate]).
      specialize (IH2 X rest eq_refl).
      destruct X; (split; [discriminate | intros ? ? [= <- <-]; simpl; lia]).
    + apply Hprim, Hts.
Qed.

Lemma parseTerm_consumes rec (n : nat) :
  consumes n (ExprParen.parsePrimary rec) -> consumes n (ExprParen.parseTerm rec).
Proof.
  intros H. unfold ExprParen.parseTerm.
  apply (parseBinExpr_consumes isTermTok (ExprParen.parseFactor rec) n).
  unfold ExprParen.parseFactor.
  apply (parseBinExpr_consumes isFactorTok (ExprParen.parseUnary rec) n).
  apply parseUnary_consumes, H.
Qed.

Lemma parseExprFuel_consumes (n : nat) : consumes n (ExprParen.parseExprFuel (S n)).
Proof.
  induction n as [| n IH].
  - apply (parseTerm_consumes _ 0), parsePrimary_consumes_0.
  - change (ExprParen.parseExprFuel (S (S n)))
      with (ExprParen.parseTerm (ExprParen.parseExprFuel (S n))).
    apply parseTerm_consumes, parsePrimary_consumes_S, IH.
Qed.

(** The parser with parentheses never exhausts its fuel. *)
Lemma ExprParen_ParseExpr_fuel (s : string) : ExprParen.ParseExpr s <> NoFuel.
Proof.
  unfold ExprParen.ParseExpr, ExprParen.tokenize.
  pose proof (tokenize_fuel ExprParen.runeMap s) as Ht.
  destruct (tokenize ExprParen.runeMap s) as [tokens | | |]; cbn [bind]; try congruence.
  unfold ExprParen.parseExpr.
  destruct (parseExprFuel_consumes (length tokens) tokens ltac:(lia)) as [Hnf _].
  destruct (ExprParen.parseExprFuel (S (length tokens)) tokens) as [[e rest] | | |];
    cbn [bind]; try congruence.
  destruct rest; discriminate.
Qed.

(** ** The fuel of the graph traversals is never exhausted *)

Lemma keys_members (m : gmap CellID (gset CellID)) (c : CellID) : keys m c ⊆ members m.
Proof.
  unfold keys, members. destruct (m !! c) as [X |] eqn:E; simpl; [| set_solver].
  intros x Hx. apply elem_of_union_list. exists X. split; [| exact Hx].
  apply list_elem_of_fmap. exists (c, X). split; [reflexivity |].
  apply elem_of_map_to_list. exact E.
Qed.

Lemma size_remove (X : gset CellID) (x : CellID) :
  x ∈ X -> (S (size (X ∖ {[x]})) = size X)%nat.
Proof.
  intros Hx. rewrite size_difference by set_solver. rewrite size_singleton.
  assert (size X <> 0%nat); [| lia].
  intros H0. apply size_empty_inv in H0. set_solver.
Qed.

Lemma enqueue_measure (U : gset CellID) (l frontier : list CellID) (seen : gset CellID) :
  (forall x, x ∈ l -> x ∈ U) ->
  (length (fst (foldl enqueue (frontier, seen) l))
   + size (U ∖ snd (foldl enqueue (frontier, seen) l))
   = length frontier + size (U ∖ seen))%nat.
Proof.
  revert frontier seen. induction l as [| x l IH]; intros frontier seen Hl; [reflexivity |].
  cbn [foldl]. unfold enqueue at 2 4.
  assert (Hl' : forall y, y ∈ l -> y ∈ U) by (intros y Hy; apply Hl; set_solver).
  destruct (decide (x ∈ seen)) as [Hin | Hnin]; [apply IH, Hl' |].
  rewrite (IH _ _ Hl'). rewrite length_app. simpl.
  assert (Hx : x ∈ U ∖ seen) by (specialize (Hl x); set_solver).
  pose proof (size_remove (U ∖ seen) x Hx) as Hsz.
  replace (U ∖ ({[x]} ∪ seen)) with ((U ∖ seen) ∖ {[x]}) by set_solver.
  lia.
Qed.

Lemma bfs_fuel o s (fuel : nat) (frontier : list CellID) (seen : gset CellID)
    (startCells : list CellID) :
  (length frontier + size (members (referredFrom s) ∖ seen) <= fuel)%nat ->
  exists r, bfs o s fuel frontier seen startCells = Ok r.
Proof.
  revert frontier seen startCells.
  induction fuel as [| fuel IH]; intros frontier seen startCells Hm.
  - destruct frontier; [eexists; reflexivity | simpl in Hm; lia].
  - destruct frontier as [| curr frontier]; [eexists; reflexivity |].
    cbn [bfs].
    pose proof (enqueue_measure (members (referredFrom s))
                  (rangeOver o InRootReferrers curr (keys (referredFrom s) curr))
                  frontier seen) as Hq.
    destruct (foldl enqueue (frontier, seen)
                (rangeOver o InRootReferrers curr (keys (referredFrom s) curr)))
      as [frontier' seen'].
    apply IH. simpl in Hq, Hm. rewrite Hq; [lia |].
    intros x Hx. apply rangeOver_elem in Hx. apply (keys_members _ curr), Hx.
Qed.

(** [rootReferrers] returns a non-empty list of cells. *)
Lemma rootReferrers_returns o s cid :
  exists roots, rootReferrers o s cid = Ok roots /\ roots <> [].
Proof.
  unfold rootReferrers.
  destruct (bfs_fuel o s (S (size (members (referredFrom s)))) [cid] {[cid]} [])
    as [r Hr].
  - simpl. pose proof (subseteq_size (members (referredFrom s) ∖ {[cid]})
                         (members (referredFrom s)) ltac:(set_solver)). lia.
  - rewrite Hr. cbn [bind]. destruct r; eexists; split; try reflexivity; discriminate.
Qed.

Section VisitFuel.
Variable o : RangeOrder.
Variable s : Spreadsheet.
(** The cells the traversal can meet. *)
Variable U : gset CellID.
Hypothesis U_closed : forall c, keys (refersTo s) c ⊆ U.

Lemma forEach_visit_fuel (fuel : nat) :
  (forall m curr, curr ∈ U -> (size (U ∖ temp m) <= fuel)%nat ->
     visit o s fuel m curr <> NoFuel /\ visit o s fuel m curr <> Panic /\
     forall m', visit o s fuel m curr = Ok m' -> temp m' = temp m) ->
  forall l m, (forall x, x ∈ l -> x ∈ U) -> (size (U ∖ temp m) <= fuel)%nat ->
    forEach (visit o s fuel) l m <> NoFuel /\ forEach (visit o s fuel) l m <> Panic /\
    forall m', forEach (visit o s fuel) l m = Ok m' -> temp m' = temp m.
Proof.
  intros Hv l. induction l as [| x l IH]; intros m Hl Hm.
  - simpl. repeat split; try discriminate. intros m' [= <-]. reflexivity.
  - cbn [forEach].
    destruct (Hv m x ltac:(apply Hl; set_solver) Hm) as (H1 & H2 & H3).
    destruct (visit o s fuel m x) as [m1 | | |]; cbn [bind]; try congruence;
      try (repeat split; discriminate).
    specialize (H3 m1 eq_refl).
    destruct (IH m1 ltac:(intros y Hy; apply Hl; set_solver) ltac:(rewrite H3; exact Hm))
      as (I1 & I2 & I3).
    repeat split; try assumption. intros m' Hm'. rewrite (I3 m' Hm'). exact H3.
Qed.

Lemma visit_fuel (fuel : nat) (m : marks) (curr : CellID) :
  curr ∈ U -> (size (U ∖ temp m) <= fuel)%nat ->
  visit o s fuel m curr <> NoFuel /\ visit o s fuel m curr <> Panic /\
  forall m', visit o s fuel m curr = Ok m' -> temp m' = temp m.
Proof.
  revert m curr. induction fuel as [| fuel IH]; intros m curr Hc Hm.
  - simpl. destruct (decide (curr ∈ perm m)).
    { repeat split; try discriminate. intros m' [= <-]. reflexivity. }
    destruct (decide (curr ∈ temp m)) as [| Hnt]; [repeat split; discriminate |].
    pose proof (size_remove (U ∖ temp m) curr ltac:(set_solver)). lia.
  - cbn [visit]. destruct (decide (curr ∈ perm m)).
    { repeat split; try discriminate. intros m' [= <-]. reflexivity. }
    destruct (decide (curr ∈ temp m)) as [| Hnt]; [repeat split; discriminate |].
    pose proof (size_remove (U ∖ temp m) curr ltac:(set_solver)) as Hsz.
    destruct (forEach_visit_fuel fuel IH
                (rangeOver o InVisit curr (keys (refersTo s) curr))
                (mkMarks (perm m) ({[curr]} ∪ temp m) (sorted m)))
      as (H1 & H2 & H3).
    + intros x Hx. apply rangeOver_elem in Hx. apply (U_closed curr), Hx.
    + simpl. replace (U ∖ ({[curr]} ∪ temp m)) with ((U ∖ temp m) ∖ {[curr]}) by set_solver.
      lia.
    + destruct (forEach (visit o s fuel) _ _) as [m2 | | |]; cbn [bind]; try congruence;
        try (repeat split; discriminate).
      repeat split; try discriminate. intros m' [= <-]. simpl.
      rewrite (H3 m2 eq_refl). simpl. set_solver.
Qed.
End VisitFuel.

(** [topSort] returns an order or [ErrCircRef]. *)
Lemma topSort_returns o s roots :
  (exists order, topSort o s roots = Ok order) \/ topSort o s roots = Err ErrCircRef.
Proof.
  unfold topSort.
  set (U := (list_to_set roots ∪ members (refersTo s) : gset CellID)).
  assert (Hcl : forall c, keys (refersTo s) c ⊆ U).
  { intros c. pose proof (keys_members (refersTo s) c). set_solver. }
  destruct (forEach_visit_fuel o s U Hcl (size U) (visit_fuel o s U Hcl (size U))
              roots (mkMarks ∅ ∅ []))
    as (H1 & H2 & _).
  - intros x Hx. subst U. set_solver.
  - simpl. apply subseteq_size. set_solver.
  - assert (Herr : forall l m e, forEach (visit o s (size U)) l m = Err e -> e = ErrCircRef).
    { clear. generalize (size U) as fuel. intros fuel l.
      assert (Hv : forall fuel m c e, visit o s fuel m c = Err e -> e = ErrCircRef).
      { clear. induction fuel as [| fuel IH]; intros m c e; simpl.
        - destruct (decide (c ∈ perm m)); [discriminate |].
          destruct (decide (c ∈ temp m)); [congruence | discriminate].
        - destruct (decide (c ∈ perm m)); [discriminate |].
          destruct (decide (c ∈ temp m)); [congruence |].
          generalize (mkMarks (perm m) ({[c]} ∪ temp m) (sorted m)).
          generalize (rangeOver o InVisit c (keys (refersTo s) c)).
          intros l. induction l as [| x l IHl]; intros m1; simpl; [discriminate |].
          destruct (visit o s fuel m1 x) as [m2 | e2 | |] eqn:E; simpl; try discriminate.
          + apply IHl.
          + intros [= <-]. eapply IH; eassumption. }
      induction l as [| x l IHl]; intros m e; simpl; [discriminate |].
      destruct (visit o s fuel m x) as [m2 | e2 | |] eqn:E; simpl; try discriminate.
      - apply IHl.
      - intros [= <-]. eapply Hv; eassumption. }
    destruct (forEach (visit o s (size U)) roots (mkMarks ∅ ∅ [])) as [m | e | |] eqn:E;
      cbn [bind]; try congruence; [left; eauto | right].
    rewrite (Herr _ _ _ E). reflexivity.
Qed.

(** [refresh] returns nil or [ErrCircRef]. *)
Lemma refresh_returns o s cid :
  snd (refresh o s cid) = Ok tt \/ snd (refresh o s cid) = Err ErrCircRef.
Proof.
  unfold refresh. destruct (cells s !! cid) as [cell |]; [| left; reflexivity].
  destruct (rootReferrers_returns o (updateRefs o s cid cell) cid) as (roots & -> & _).
  destruct (topSort_returns o (updateRefs o s cid cell) roots) as [[order ->] | ->]; auto.
Qed.

(** [SetCellValue] returns: it neither panics nor exhausts the fuel of the
    model, unless the parser does. *)
Lemma SetCellValue_returns ParseExpr o s cellID v :
  match v with
  | VString text => ParseExpr text <> Panic /\ ParseExpr text <> NoFuel
  | _ => True
  end ->
  snd (SetCellValue ParseExpr o s cellID v) = Ok tt \/
  exists e, snd (SetCellValue ParseExpr o s cellID v) = Err e.
Proof.
  intros Hp. unfold SetCellValue.
  destruct (ParseCellID_returns cellID) as [[cid ->] | ->]; [| right; eauto].
  destruct v as [n | text |]; [| | right; eauto].
  - destruct (refresh_returns o (setCell (ensureCell s cid) cid (mkCell n None)) cid)
      as [-> | ->]; eauto.
  - destruct Hp as [Hp1 Hp2].
    destruct (ParseExpr text) as [e | err | |]; try congruence; [| right; eauto].
    destruct (refresh_returns o (setCell (ensureCell s cid) cid (mkCell 0 (Some e))) cid)
      as [-> | ->]; eauto.
Qed.

(** ** [topSort] puts dependencies first and rejects recorded cycles *)

Lemma dependenciesFirst_nil s : dependenciesFirst s [].
Proof. intros l1 x l2 H. destruct l1; discriminate. Qed.

Lemma dependenciesFirst_snoc s (l : list CellID) (x : CellID) :
  dependenciesFirst s l -> keys (refersTo s) x ⊆ list_to_set l ->
  dependenciesFirst s (l ++ [x]).
Proof.
  intros Hl Hx l1 y l2 E.
  destruct l2 as [| z l2 _] using rev_ind.
  - apply app_inj_tail in E as [-> ->]. exact Hx.
  - rewrite app_comm_cons, app_assoc in E. apply app_inj_tail in E as [E _].
    eapply Hl. exact E.
Qed.

Lemma dependenciesFirst_reach s (l : list CellID) (x y : CellID) :
  dependenciesFirst s l -> tc (edge s) x y ->
  forall l1 l2, l = l1 ++ x :: l2 -> y ∈ l1.
Proof.
  intros Hl Hxy. induction Hxy as [x y Hxy | x y z Hxy Hyz IH]; intros l1 l2 E.
  - specialize (Hl l1 x l2 E). unfold edge in Hxy. set_solver.
  - assert (Hy : y ∈ l1) by (specialize (Hl l1 x l2 E); unfold edge in Hxy; set_solver).
    apply list_elem_of_split in Hy as (a & b & ->).
    rewrite <- app_assoc in E. simpl in E.
    specialize (IH a _ E). set_solver.
Qed.

Lemma dependenciesFirst_acyclic s (l : list CellID) (x : CellID) :
  dependenciesFirst s l -> x ∈ l -> ~ tc (edge s) x x.
Proof.
  intros Hl Hx Hcyc. apply list_elem_of_split in Hx as (l1 & l2 & E).
  revert l2 E. induction l1 as [l1 IH] using (induction_ltof1 _ (@length CellID)).
  intros l2 E.
  pose proof (dependenciesFirst_reach s l x x Hl Hcyc l1 l2 E) as Hin.
  apply list_elem_of_split in Hin as (a & b & ->).
  rewrite <- app_assoc in E. simpl in E.
  apply (IH a) with (l2 := b ++ x :: l2); [| exact E].
  unfold ltof. rewrite length_app. simpl. lia.
Qed.

Section VisitSound.
Variable o : RangeOrder.
Variable s : Spreadsheet.

Lemma marksGrow_refl (m : marks) : marksGrow m m.
Proof. repeat split; auto. Qed.

Lemma marksGrow_trans (m1 m2 m3 : marks) :
  marksGrow m1 m2 -> marksGrow m2 m3 -> marksGrow m1 m3.
Proof.
  intros (A1 & A2 & A3) (B1 & B2 & B3). repeat split.
  - set_solver.
  - congruence.
  - intros x Hx Hx3. apply A3; [exact Hx |]. apply B3; [rewrite A2; exact Hx | exact Hx3].
Qed.

Lemma forEach_visit_sound (fuel : nat) :
  (forall m curr m', visit o s fuel m curr = Ok m' -> marksSound s m ->
     marksSound s m' /\ marksGrow m m' /\ curr ∈ perm m') ->
  forall l m m', forEach (visit o s fuel) l m = Ok m' -> marksSound s m ->
    marksSound s m' /\ marksGrow m m' /\ forall x, x ∈ l -> x ∈ perm m'.
Proof.
  intros Hv l. induction l as [| x l IH]; intros m m' Hrun Hm.
  - simpl in Hrun. injection Hrun as <-.
    split; [exact Hm |]. split; [apply marksGrow_refl | set_solver].
  - cbn [forEach] in Hrun.
    destruct (visit o s fuel m x) as [m1 | | |] eqn:E; cbn [bind] in Hrun; try discriminate.
    destruct (Hv m x m1 E Hm) as (H1 & H2 & H3).
    destruct (IH m1 m' Hrun H1) as (I1 & I2 & I3).
    split; [exact I1 |]. split; [eapply marksGrow_trans; eassumption |].
    intros y Hy. apply elem_of_cons in Hy as [-> | Hy]; [| auto].
    destruct I2 as (I2 & _). set_solver.
Qed.

Lemma visit_sound (fuel : nat) (m : marks) (curr : CellID) (m' : marks) :
  visit o s fuel m curr = Ok m' -> marksSound s m ->
  marksSound s m' /\ marksGrow m m' /\ curr ∈ perm m'.
Proof.
  revert m curr m'. induction fuel as [| fuel IH]; intros m curr m'; simpl.
  - destruct (decide (curr ∈ perm m)); [| destruct (decide (curr ∈ temp m)); discriminate].
    intros [= <-] Hm. split; [exact Hm |]. split; [apply marksGrow_refl | assumption].
  - destruct (decide (curr ∈ perm m)) as [| Hnp].
    { intros [= <-] Hm. split; [exact Hm |]. split; [apply marksGrow_refl | assumption]. }
    destruct (decide (curr ∈ temp m)) as [| Hnt]; [discriminate |].
    destruct (forEach (visit o s fuel) _ _) as [m2 | | |] eqn:E; cbn [bind]; try discriminate.
    intros [= <-] Hm.
    destruct (forEach_visit_sound fuel IH _ _ _ E) as ((I1 & I1' & I1'') & (I2 & I2' & I2'') & I3);
      [exact Hm |].
    simpl in *.
    assert (Hfresh : curr ∉ perm m2) by (intros Hin; apply Hnp, I2''; [set_solver | exact Hin]).
    split; [| split]; [repeat split | repeat split |]; simpl.
    + apply dependenciesFirst_snoc; [exact I1 |].
      intros y Hy. rewrite <- I1'. apply I3, rangeOver_elem, Hy.
    + rewrite list_to_set_app_L, <- I1'. simpl. set_solver.
    + apply NoDup_app. split; [exact I1'' |]. split; [| apply NoDup_singleton].
      intros x Hx Hx'. apply list_elem_of_singleton in Hx' as ->.
      apply Hfresh. rewrite I1'. set_solver.
    + set_solver.
    + rewrite I2'. set_solver.
    + intros x Hx Hx'. apply I2''; [set_solver |]. set_solver.
    + set_solver.
Qed.
End VisitSound.

(** The order [topSort] returns lists every start node, and every cell
    after the cells it refers to. *)
Lemma topSort_sound o s roots order :
  topSort o s roots = Ok order ->
  dependenciesFirst s order /\ NoDup order /\ forall r, r ∈ roots -> r ∈ order.
Proof.
  unfold topSort. intros H.
  destruct (forEach (visit o s _) roots (mkMarks ∅ ∅ [])) as [m | | |] eqn:E;
    cbn [bind] in H; try discriminate.
  injection H as <-.
  destruct (forEach_visit_sound o s _ (visit_sound o s _) _ _ _ E)
    as ((H1 & H2 & H2') & _ & H3).
  - split; [apply dependenciesFirst_nil | split; [reflexivity | apply NoDup_nil_2]].
  - split; [exact H1 |]. split; [exact H2' |].
    intros r Hr. specialize (H3 r Hr). rewrite H2 in H3. set_solver.
Qed.

(** Every cell [rootReferrers] returns refers, directly or not, to the
    mutated cell (or is that cell). *)
Lemma enqueue_from (l frontier : list CellID) (seen : gset CellID) (x : CellID) :
  x ∈ fst (foldl enqueue (frontier, seen) l) -> x ∈ frontier \/ x ∈ l.
Proof.
  revert frontier seen. induction l as [| y l IH]; intros frontier seen; [simpl; auto |].
  cbn [foldl]. unfold enqueue at 2. destruct (decide (y ∈ seen)).
  - intros H. destruct (IH _ _ H); [auto | right; set_solver].
  - intros H. destruct (IH _ _ H) as [H1 | H1]; [| right; set_solver].
    apply elem_of_app in H1 as [H1 | H1]; [auto | right; set_solver].
Qed.

Lemma bfs_ancestors o s cid (fuel : nat) (frontier : list CellID) (seen : gset CellID)
    (startCells r : list CellID) :
  inverse s ->
  (forall x, x ∈ frontier -> rtc (edge s) x cid) ->
  (forall x, x ∈ startCells -> rtc (edge s) x cid) ->
  bfs o s fuel frontier seen startCells = Ok r ->
  forall x, x ∈ r -> rtc (edge s) x cid.
Proof.
  intros Hinv. revert frontier seen startCells.
  induction fuel as [| fuel IH]; intros frontier seen startCells Hf Hs.
  - destruct frontier; simpl; [| discriminate]. intros [= <-]. exact Hs.
  - destruct frontier as [| curr frontier]; cbn [bfs]; [intros [= <-]; exact Hs |].
    pose proof (enqueue_from (rangeOver o InRootReferrers curr (keys (referredFrom s) curr))
                  frontier seen) as Hq.
    destruct (foldl enqueue (frontier, seen) _) as [frontier' seen'].
    apply IH.
    + intros x Hx. destruct (Hq x Hx) as [H | H]; [apply Hf; set_solver |].
      apply rangeOver_elem in H. apply Hinv in H.
      eapply rtc_l; [exact H | apply Hf; set_solver].
    + destruct (decide (size (keys (referredFrom s) curr) = 0%nat)); [| exact Hs].
      intros x Hx. apply elem_of_app in Hx as [Hx | Hx]; [auto |].
      apply Hf. set_solver.
Qed.

Lemma rootReferrers_ancestors o s cid roots :
  inverse s -> rootReferrers o s cid = Ok roots ->
  roots <> [] /\ forall r, r ∈ roots -> rtc (edge s) r cid.
Proof.
  intros Hinv. unfold rootReferrers.
  destruct (bfs o s _ [cid] {[cid]} []) as [startCells | | |] eqn:E; cbn [bind];
    try discriminate.
  assert (Hanc : forall x, x ∈ startCells -> rtc (edge s) x cid).
  { eapply (bfs_ancestors o s cid); [exact Hinv | | | exact E].
    - intros x Hx. apply list_elem_of_singleton in Hx as ->. apply rtc_refl.
    - intros x Hx. inversion Hx. }
  destruct startCells as [| r0 rs]; intros [= <-].
  - split; [discriminate |]. intros r Hr. apply list_elem_of_singleton in Hr as ->.
    apply rtc_refl.
  - split; [discriminate | exact Hanc].
Qed.

(** Whenever the recorded graph, once the edges of the mutated cell are
    rewritten, has a cycle through that cell, [refresh] returns
    [ErrCircRef]. *)
Lemma refresh_detects_cycle o s cid cell :
  inverse s -> cells s !! cid = Some cell ->
  tc (edge (updateRefs o s cid cell)) cid cid ->
  snd (refresh o s cid) = Err ErrCircRef.
Proof.
  intros Hinv Hcell Hcyc.
  destruct (refresh_returns o s cid) as [Hok | Herr]; [| exact Herr].
  exfalso. unfold refresh in Hok. rewrite Hcell in Hok.
  pose proof (updateRefs_inverse o s cid cell Hinv) as Hinv1.
  destruct (rootReferrers o (updateRefs o s cid cell) cid) as [roots | | |] eqn:Er;
    try discriminate.
  destruct (rootReferrers_ancestors _ _ _ _ Hinv1 Er) as [Hne Hanc].
  destruct (topSort o (updateRefs o s cid cell) roots) as [order | | |] eqn:Et;
    try discriminate.
  destruct (topSort_sound _ _ _ _ Et) as (Hdep & _ & Hroots).
  destruct roots as [| r roots]; [congruence |].
  assert (Hr : r ∈ order) by (apply Hroots; set_solver).
  assert (Hrc : rtc (edge (updateRefs o s cid cell)) r cid) by (apply Hanc; set_solver).
  assert (Hc : cid ∈ order).
  { apply rtc_tc in Hrc as [-> | Hrc]; [exact Hr |].
    apply list_elem_of_split in Hr as (l1 & l2 & E).
    pose proof (dependenciesFirst_reach _ _ _ _ Hdep Hrc l1 l2 E). subst order. set_solver. }
  exact (dependenciesFirst_acyclic _ _ _ Hdep Hc Hcyc).
Qed.

(** ** [topSort] fails only on a recorded cycle *)

Section VisitComplete.
Variable o : RangeOrder.
Variable s : Spreadsheet.

Lemma forEach_visit_temp (fuel : nat) :
  (forall m curr m', visit o s fuel m curr = Ok m' -> temp m' = temp m) ->
  forall l m m', forEach (visit o s fuel) l m = Ok m' -> temp m' = temp m.
Proof.
  intros Hv l. induction l as [| x l IH]; intros m m'; simpl.
  - intros [= <-]. reflexivity.
  - destruct (visit o s fuel m x) as [m1 | | |] eqn:E; cbn [bind]; try discriminate.
    intros H. rewrite (IH _ _ H). eapply Hv, E.
Qed.

Lemma visit_temp (fuel : nat) (m : marks) (curr : CellID) (m' : marks) :
  visit o s fuel m curr = Ok m' -> temp m' = temp m.
Proof.
  revert m curr m'. induction fuel as [| fuel IH]; intros m curr m'; simpl.
  - destruct (decide (curr ∈ perm m)); [| destruct (decide (curr ∈ temp m)); discriminate].
    intros [= <-]. reflexivity.
  - destruct (decide (curr ∈ perm m)); [intros [= <-]; reflexivity |].
    destruct (decide (curr ∈ temp m)); [discriminate |].
    destruct (forEach (visit o s fuel) _ _) as [m2 | | |] eqn:E; cbn [bind]; try discriminate.
    intros [= <-]. simpl. rewrite (forEach_visit_temp fuel IH _ _ _ E). simpl. set_solver.
Qed.

Lemma forEach_visit_error (fuel : nat) :
  (forall m curr e, (forall t, t ∈ temp m -> tc (edge s) t curr) ->
     visit o s fuel m curr = Err e -> exists z, tc (edge s) z z) ->
  forall l m e, (forall y t, y ∈ l -> t ∈ temp m -> tc (edge s) t y) ->
    forEach (visit o s fuel) l m = Err e -> exists z, tc (edge s) z z.
Proof.
  intros Hv l. induction l as [| x l IH]; intros m e Hl; simpl; [discriminate |].
  destruct (visit o s fuel m x) as [m1 | e1 | |] eqn:E; cbn [bind]; try discriminate.
  - apply IH. intros y t Hy Ht. rewrite (visit_temp _ _ _ _ E) in Ht.
    apply Hl; [set_solver | exact Ht].
  - intros _. apply (Hv m x e1); [| exact E]. intros t Ht. apply Hl; [set_solver | exact Ht].
Qed.

Lemma visit_error (fuel : nat) (m : marks) (curr : CellID) (e : error) :
  (forall t, t ∈ temp m -> tc (edge s) t curr) ->
  visit o s fuel m curr = Err e -> exists z, tc (edge s) z z.
Proof.
  revert m curr e. induction fuel as [| fuel IH]; intros m curr e Ht; simpl.
  - destruct (decide (curr ∈ perm m)); [discriminate |].
    destruct (decide (curr ∈ temp m)); [| discriminate]. intros _. eauto.
  - destruct (decide (curr ∈ perm m)); [discriminate |].
    destruct (decide (curr ∈ temp m)); [intros _; eauto |].
    destruct (forEach (visit o s fuel) _ _) as [m2 | e2 | |] eqn:E; cbn [bind]; try discriminate.
    intros _. apply (forEach_visit_error fuel IH _ _ _) in E; [exact E |].
    intros y t Hy Hin. apply rangeOver_elem in Hy. simpl in Hin.
    apply elem_of_union in Hin as [Hin | Hin].
    + apply elem_of_singleton in Hin as ->. apply tc_once. exact Hy.
    + eapply tc_r; [apply Ht, Hin | exact Hy].
Qed.
End VisitComplete.

Lemma topSort_error o s roots e :
  topSort o s roots = Err e -> exists z, tc (edge s) z z.
Proof.
  unfold topSort.
  destruct (forEach (visit o s _) roots (mkMarks ∅ ∅ [])) as [m | e1 | |] eqn:E;
    cbn [bind]; try discriminate.
  intros _. apply (forEach_visit_error o s _ (visit_error o s _)) in E; [exact E |].
  intros y t _ Ht. simpl in Ht. set_solver.
Qed.

(** [refresh] fails only when the recorded graph, once the edges of the
    mutated cell are rewritten, has a cycle. *)
Lemma refresh_error_cycle o s cid e :
  snd (refresh o s cid) = Err e ->
  exists cell, cells s !! cid = Some cell /\
               exists z, tc (edge (updateRefs o s cid cell)) z z.
Proof.
  unfold refresh. destruct (cells s !! cid) as [cell |]; [| discriminate].
  destruct (rootReferrers_returns o (updateRefs o s cid cell) cid) as (roots & -> & _).
  destruct (topSort o (updateRefs o s cid cell) roots) as [order | e1 | |] eqn:Et;
    try discriminate.
  intros _. exists cell. split; [reflexivity |]. eapply topSort_error, Et.
Qed.

(** ** Successful calls leave no stale value *)

Lemma addCellReferrals_keys cid l s c :
  keys (refersTo (foldl (addCellReferral cid) s l)) c
  = if decide (c = cid) then list_to_set l ∪ keys (refersTo s) cid
    else keys (refersTo s) c.
Proof.
  revert s. induction l as [| r l IH]; intros s; simpl.
  - destruct (decide (c = cid)) as [-> |]; set_solver.
  - rewrite IH. simpl. rewrite !keys_insert.
    destruct (decide (c = cid)) as [-> |]; [| reflexivity].
    destruct (decide (cid = cid)); [| congruence]. set_solver.
Qed.

Lemma updateRefs_keys o s cid cell e c :
  expr cell = Some e ->
  keys (refersTo (updateRefs o s cid cell)) c
  = if decide (c = cid) then list_to_set (CellRefs e) else keys (refersTo s) c.
Proof.
  intros He. unfold updateRefs. rewrite He, addCellReferrals_keys. simpl.
  destruct (dropReferrals_cells cid (rangeOver o InRefresh cid (keys (refersTo s) cid)) s)
    as [_ ->].
  rewrite !keys_alter by reflexivity.
  destruct (decide (c = cid)) as [-> |]; [| reflexivity].
  destruct (decide (cid = cid)); [| congruence]. set_solver.
Qed.

Lemma updateRefs_literal o s cid cell : expr cell = None -> updateRefs o s cid cell = s.
Proof. intros He. unfold updateRefs. rewrite He. reflexivity. Qed.

Lemma updateRefs_other o s cid cell c :
  c <> cid -> keys (refersTo (updateRefs o s cid cell)) c = keys (refersTo s) c.
Proof.
  intros Hne. destruct (expr cell) as [e |] eqn:He.
  - rewrite (updateRefs_keys o s cid cell e c He).
    destruct (decide (c = cid)); [congruence | reflexivity].
  - rewrite updateRefs_literal by exact He. reflexivity.
Qed.

Lemma evalExpr_ext (s s' : Spreadsheet) (e : Expr) :
  (forall r, r ∈ references e -> cellValue s r = cellValue s' r) ->
  evalExpr s e = evalExpr s' e.
Proof.
  induction e as [X IH op | X IHX op Y IHY | v | r]; simpl; intros H.
  - rewrite IH by exact H. reflexivity.
  - rewrite IHX, IHY by (intros r Hr; apply H; set_solver). reflexivity.
  - reflexivity.
  - apply (H r). set_solver.
Qed.

(** A cycle of a graph that differs from an acyclic one only in the edges
    leaving [cid] goes through [cid]. *)
Lemma tc_change_at (R R' : relation CellID) (cid x y : CellID) :
  (forall c z, c <> cid -> R' c z -> R c z) ->
  tc R' x y -> tc R x y \/ (rtc R' x cid /\ tc R' cid y).
Proof.
  intros Hsame Hxy. induction Hxy as [x y Hxy | x y z Hxy Hyz IH].
  - destruct (decide (x = cid)) as [-> | Hne].
    + right. split; [apply rtc_refl | apply tc_once, Hxy].
    + left. apply tc_once, Hsame; assumption.
  - destruct (decide (x = cid)) as [-> | Hne].
    + right. split; [apply rtc_refl | eapply tc_l; eassumption].
    + destruct IH as [IH | [IH1 IH2]].
      * left. eapply tc_l; [apply Hsame; eassumption | exact IH].
      * right. split; [eapply rtc_l; eassumption | exact IH2].
Qed.

Lemma acyclic_change_at (s s' : Spreadsheet) (cid : CellID) :
  (forall c, c <> cid -> keys (refersTo s') c = keys (refersTo s) c) ->
  acyclic s -> ~ tc (edge s') cid cid -> acyclic s'.
Proof.
  intros Hsame Hac Hcid x Hx.
  destruct (tc_change_at (edge s) (edge s') cid x x) as [H | [H1 H2]]; [| exact Hx | |].
  - intros c z Hne Hcz. unfold edge in *. rewrite <- (Hsame c Hne). exact Hcz.
  - exact (Hac x H).
  - apply Hcid. eapply tc_rtc_r; eassumption.
Qed.

Lemma enqueue_facts (l frontier : list CellID) (seen : gset CellID) :
  seen ⊆ snd (foldl enqueue (frontier, seen) l) /\
  (forall x, x ∈ l -> x ∈ snd (foldl enqueue (frontier, seen) l)) /\
  (forall x, x ∈ frontier -> x ∈ fst (foldl enqueue (frontier, seen) l)) /\
  (forall x, x ∈ snd (foldl enqueue (frontier, seen) l) ->
             x ∈ seen \/ x ∈ fst (foldl enqueue (frontier, seen) l)).
Proof.
  revert frontier seen. induction l as [| y l IH]; intros frontier seen.
  - simpl. repeat split; [set_solver | intros x Hx; inversion Hx | auto | auto].
  - cbn [foldl]. unfold enqueue at 2 4 6 8 10.
    destruct (decide (y ∈ seen)) as [Hin | Hnin].
    + destruct (IH frontier seen) as (A & B & C & D).
      repeat split; [exact A | | exact C | exact D].
      intros x Hx. apply elem_of_cons in Hx as [-> | Hx]; [apply A, Hin | apply B, Hx].
    + destruct (IH (frontier ++ [y]) ({[y]} ∪ seen)) as (A & B & C & D).
      repeat split.
      * set_solver.
      * intros x Hx. apply elem_of_cons in Hx as [-> | Hx]; [set_solver | apply B, Hx].
      * intros x Hx. apply C. set_solver.
      * intros x Hx. destruct (D x Hx) as [H | H]; [| auto].
        apply elem_of_union in H as [H | H]; [| auto].
        apply elem_of_singleton in H as ->. right. apply C. set_solver.
Qed.

Lemma bfs_closed o s (fuel : nat) (frontier : list CellID) (seen : gset CellID)
    (startCells r : list CellID) :
  bfsInv s frontier seen startCells ->
  bfs o s fuel frontier seen startCells = Ok r ->
  exists seen' : gset CellID,
    seen ⊆ seen' /\
    forall x, x ∈ seen' ->
      keys (referredFrom s) x ⊆ seen' /\
      (size (keys (referredFrom s) x) = 0%nat -> x ∈ r).
Proof.
  revert frontier seen startCells.
  induction fuel as [| fuel IH]; intros frontier seen startCells Hinv.
  - destruct frontier; simpl; [| discriminate]. intros [= <-].
    exists seen. split; [set_solver |]. intros x Hx.
    destruct (Hinv x Hx) as [H | H]; [inversion H | exact H].
  - destruct frontier as [| curr frontier]; cbn [bfs].
    { intros [= <-]. exists seen. split; [set_solver |]. intros x Hx.
      destruct (Hinv x Hx) as [H | H]; [inversion H | exact H]. }
    pose proof (enqueue_facts (rangeOver o InRootReferrers curr (keys (referredFrom s) curr))
                  frontier seen) as (A & B & C & D).
    destruct (foldl enqueue (frontier, seen) _) as [frontier' seen']. simpl in A, B, C, D.
    intros Hrun. apply IH in Hrun.
    + destruct Hrun as (seen'' & Hsub & Hcl). exists seen''. split; [set_solver | exact Hcl].
    + intros x Hx. destruct (D x Hx) as [Hold | Hnew]; [| auto].
      destruct (Hinv x Hold) as [Hq | [Hp1 Hp2]].
      * apply elem_of_cons in Hq as [-> | Hq]; [| auto].
        right. split.
        -- intros y Hy. apply B, rangeOver_elem, Hy.
        -- intros Hz. destruct (decide (size (keys (referredFrom s) curr) = 0%nat));
             [set_solver | congruence].
      * right. split; [set_solver |]. intros Hz. specialize (Hp2 Hz).
        destruct (decide (size (keys (referredFrom s) curr) = 0%nat)); set_solver.
Qed.

Lemma tc_referredBy s x y : tc (referredBy s) x y -> tc (edge s) y x.
Proof.
  induction 1 as [x y H | x y z H _ IH]; [apply tc_once, H |].
  eapply tc_r; [exact IH | exact H].
Qed.

Lemma referredBy_sn s x : acyclic s -> sn (referredBy s) x.
Proof.
  intros Hac. apply tc_finite_sn.
  - intros y Hy. apply (Hac y), tc_referredBy, Hy.
  - exists (elements (dom (refersTo s))). intros y Hy.
    assert (Hlast : exists z, edge s y z).
    { clear -Hy. induction Hy as [x y H | x y z _ _ IH]; [exists x; exact H | exact IH]. }
    destruct Hlast as [z Hz]. apply elem_of_elements, elem_of_dom.
    unfold edge, keys in Hz. destruct (refersTo s !! y); [eauto | set_solver].
Qed.

(** In a coherent acyclic graph, every cell that refers to [cid], directly
    or not, is reached from one of the cells [rootReferrers] returns. *)
Lemma rootReferrers_complete o s cid roots :
  inverse s -> acyclic s -> rootReferrers o s cid = Ok roots ->
  forall x, rtc (edge s) x cid -> exists r, r ∈ roots /\ rtc (edge s) r x.
Proof.
  intros Hinv Hac. unfold rootReferrers.
  generalize (S (size (members (referredFrom s)))). intros fuel.
  destruct (bfs o s fuel [cid] {[cid]} []) as [startCells | | |] eqn:E; cbn [bind];
    try discriminate.
  assert (Hinv0 : bfsInv s [cid] {[cid]} []) by (intros x Hx; left; set_solver).
  destruct (bfs_closed o s _ _ _ _ _ Hinv0 E) as (S & Hcid & Hcl).
  assert (Hseen : forall x, rtc (edge s) x cid -> x ∈ S).
  { intros x Hx. revert x Hx. apply (rtc_ind_l (fun x => x ∈ S)); [set_solver |].
    intros x y Hxy _ IH. apply (Hcl y IH). apply Hinv. exact Hxy. }
  assert (Hsrc : forall x, x ∈ S -> exists r, r ∈ startCells /\ rtc (edge s) r x).
  { intros x. induction (referredBy_sn s x Hac) as [x _ IH]. intros Hx.
    destruct (decide (size (keys (referredFrom s) x) = 0%nat)) as [Hz | Hnz].
    - exists x. split; [apply (Hcl x Hx), Hz | apply rtc_refl].
    - destruct (size_pos_elem_of (keys (referredFrom s) x) ltac:(lia)) as [y Hy].
      destruct (IH y) as (r & Hr & Hry).
      + apply Hinv. exact Hy.
      + apply (Hcl x Hx), Hy.
      + exists r. split; [exact Hr |]. eapply rtc_r; [exact Hry | apply Hinv, Hy]. }
  intros Hroots x Hx.
  destruct (Hsrc x (Hseen x Hx)) as (r & Hr & Hrx).
  destruct startCells as [| r0 rs]; [inversion Hr |].
  injection Hroots as <-. eauto.
Qed.

Lemma eval_cellExpr s x :
  eval s x = match cellExpr s x with
             | Some e => evalExpr s e
             | None => cellValue s x
             end.
Proof.
  unfold eval, cellExpr, cellValue. destruct (cells s !! x) as [cell |]; [| reflexivity].
  destruct (expr cell); reflexivity.
Qed.

Lemma reevaluate_cellExpr s x c : cellExpr (reevaluate s x) c = cellExpr s c.
Proof.
  unfold reevaluate, cellExpr. destruct (cells s !! x) as [cell |] eqn:E; [| reflexivity].
  simpl. destruct (decide (c = x)) as [-> |].
  - rewrite lookup_insert_eq, E. reflexivity.
  - rewrite lookup_insert_ne by congruence. reflexivity.
Qed.

Lemma reevaluate_cellValue s x c :
  cellValue (reevaluate s x) c = if decide (c = x) then eval s x else cellValue s c.
Proof.
  unfold reevaluate, cellValue.
  destruct (cells s !! x) as [cell |] eqn:E; simpl.
  - destruct (decide (c = x)) as [-> |].
    + rewrite lookup_insert_eq. reflexivity.
    + rewrite lookup_insert_ne by congruence. reflexivity.
  - destruct (decide (c = x)) as [-> |]; [| reflexivity].
    unfold eval. rewrite E. reflexivity.
Qed.

Lemma reevaluate_refersTo s x : refersTo (reevaluate s x) = refersTo s.
Proof. unfold reevaluate. destruct (cells s !! x); reflexivity. Qed.

Section Reevaluation.
Variable s1 : Spreadsheet.
Variable order : list CellID.
(** Cells whose value the mutation cannot reach. *)
Variable stable : CellID -> Prop.
Hypothesis order_deps : dependenciesFirst s1 order.
Hypothesis order_nodup : NoDup order.
Hypothesis s1_covers : covers s1.
Hypothesis stable_consistent : forall c, stable c -> consistentAt s1 c.
Hypothesis stable_closed : forall c r, stable c -> edge s1 c r -> stable r.

Local Abbreviation reevaluated := (reevaluated s1 stable).

Lemma reevaluated_step (done todo : list CellID) (x : CellID) (t : Spreadsheet) :
  order = done ++ x :: todo -> reevaluated done t ->
  reevaluated (done ++ [x]) (reevaluate t x).
Proof.
  intros Ho (Hg & He & Hc & Hs & Hn).
  assert (Hx : x ∉ done).
  { rewrite Ho in order_nodup. apply NoDup_app in order_nodup as (_ & Hd & _).
    intros Hin. apply (Hd x Hin). set_solver. }
  assert (Hdeps : forall c e, c ∈ done ++ [x] -> cellExpr s1 c = Some e ->
                              forall r, r ∈ references e -> r ∈ done).
  { intros c e Hin Hce r Hr. apply (s1_covers c e Hce) in Hr.
    apply elem_of_app in Hin as [Hin | Hin].
    - apply list_elem_of_split in Hin as (a & b & ->).
      rewrite <- app_assoc in Ho. simpl in Ho.
      pose proof (order_deps _ _ _ Ho) as Hk. set_solver.
    - apply list_elem_of_singleton in Hin as ->.
      pose proof (order_deps _ _ _ Ho) as Hk. set_solver. }
  assert (Hsame : forall c e, c ∈ done ++ [x] -> cellExpr s1 c = Some e ->
                              evalExpr (reevaluate t x) e = evalExpr t e).
  { intros c e Hin Hce. apply evalExpr_ext. intros r Hr.
    rewrite reevaluate_cellValue. destruct (decide (r = x)) as [-> |]; [| reflexivity].
    exfalso. apply Hx. eapply Hdeps; eassumption. }
  repeat split.
  - rewrite reevaluate_refersTo. exact Hg.
  - intros c. rewrite reevaluate_cellExpr. apply He.
  - intros c Hin e Hce. rewrite reevaluate_cellExpr, He in Hce.
    rewrite (Hsame c e Hin Hce), reevaluate_cellValue.
    destruct (decide (c = x)) as [-> | Hne].
    + rewrite eval_cellExpr, He, Hce. reflexivity.
    + apply Hc; [set_solver |]. rewrite He. exact Hce.
  - intros c Hst. rewrite reevaluate_cellValue.
    destruct (decide (c = x)) as [-> | Hne]; [| apply Hs, Hst].
    rewrite eval_cellExpr, He. destruct (cellExpr s1 x) as [e |] eqn:Hce; [| apply Hs, Hst].
    rewrite (stable_consistent x Hst e Hce). apply evalExpr_ext.
    intros r Hr. apply Hs. apply (stable_closed x r Hst). apply (s1_covers x e Hce), Hr.
  - intros c Hnin. rewrite reevaluate_cellValue.
    destruct (decide (c = x)) as [-> | Hne]; [set_solver |]. apply Hn. set_solver.
Qed.

Lemma reevaluated_fold (todo done : list CellID) (t : Spreadsheet) :
  order = done ++ todo -> reevaluated done t ->
  reevaluated order (foldl reevaluate t todo).
Proof.
  revert done t. induction todo as [| x todo IH]; intros done t Ho Ht.
  - simpl. rewrite Ho, app_nil_r. exact Ht.
  - simpl. apply (IH (done ++ [x])).
    + rewrite <- app_assoc. exact Ho.
    + eapply reevaluated_step; eassumption.
Qed.

Lemma reevaluated_all : reevaluated order (foldl reevaluate s1 order).
Proof.
  apply (reevaluated_fold order []); [reflexivity |].
  repeat split; auto. intros c Hc. inversion Hc.
Qed.

(** When every cell outside the order is stable, the loop leaves every
    cell consistent. *)
Lemma reevaluated_consistent :
  (forall c, c ∉ order -> stable c) -> consistent (foldl reevaluate s1 order).
Proof.
  intros Hrest. destruct reevaluated_all as (Hg & He & Hc & Hs & Hn).
  intros c. destruct (decide (c ∈ order)) as [Hin | Hnin]; [apply Hc, Hin |].
  intros e Hce. rewrite He in Hce. pose proof (Hrest c Hnin) as Hst.
  rewrite (Hs c Hst), (stable_consistent c Hst e Hce).
  apply evalExpr_ext. intros r Hr. symmetry. apply Hs.
  apply (stable_closed c r Hst). apply (s1_covers c e Hce), Hr.
Qed.
End Reevaluation.

Lemma setCell_cellExpr s cid cell c :
  cellExpr (setCell s cid cell) c = if decide (c = cid) then expr cell else cellExpr s c.
Proof.
  unfold setCell, cellExpr. simpl. destruct (decide (c = cid)) as [-> |].
  - rewrite lookup_insert_eq. reflexivity.
  - rewrite lookup_insert_ne by congruence. reflexivity.
Qed.

Lemma setCell_cellValue s cid cell c :
  cellValue (setCell s cid cell) c = if decide (c = cid) then currValue cell else cellValue s c.
Proof.
  unfold setCell, cellValue. simpl. destruct (decide (c = cid)) as [-> |].
  - rewrite lookup_insert_eq. reflexivity.
  - rewrite lookup_insert_ne by congruence. reflexivity.
Qed.

Lemma acyclic_graph s s' : refersTo s' = refersTo s -> acyclic s -> acyclic s'.
Proof. unfold acyclic, edge. intros ->. auto. Qed.

Lemma ensureCell_settled s cid : settled s -> settled (ensureCell s cid).
Proof.
  intros (Hi & Ha & Hc & Hv). destruct (ensureCell_graph s cid) as [E1 E2].
  split; [eapply inverse_graph; eassumption |].
  split; [eapply acyclic_graph; eassumption |]. split.
  - intros c e. rewrite ensureCell_cellExpr, E1. apply Hc.
  - intros c e. rewrite ensureCell_cellExpr, ensureCell_cellValue. intros He.
    rewrite (Hv c e He). apply evalExpr_ext. intros r _.
    symmetry. apply ensureCell_cellValue.
Qed.

Lemma refresh_settled o s cid newcell :
  settled s -> (forall e, expr newcell = Some e -> listed e) ->
  snd (refresh o (setCell (ensureCell s cid) cid newcell) cid) = Ok tt ->
  settled (fst (refresh o (setCell (ensureCell s cid) cid newcell) cid)).
Proof.
  intros Hs Hlisted Hok. apply (ensureCell_settled s cid) in Hs.
  revert Hs Hok. generalize (ensureCell s cid). clear s. intros s (Hi & Ha & Hc & Hv) Hok.
  set (s0 := setCell s cid newcell) in *.
  assert (Hcell : cells s0 !! cid = Some newcell) by (simpl; apply lookup_insert_eq).
  assert (Hi0 : inverse s0) by (eapply inverse_graph; [reflexivity | reflexivity | exact Hi]).
  pose proof (refresh_detects_cycle o s0 cid newcell Hi0 Hcell) as Hdet.
  unfold refresh in *. rewrite Hcell in *.
  set (s1 := updateRefs o s0 cid newcell) in *.
  pose proof (updateRefs_inverse o s0 cid newcell Hi0) as Hi1. fold s1 in Hi1.
  assert (HcellE : forall c, cellExpr s1 c = if decide (c = cid) then expr newcell else cellExpr s c).
  { intros c. unfold cellExpr at 1. unfold s1. rewrite updateRefs_cells.
    apply (setCell_cellExpr s cid newcell c). }
  assert (HcellV : forall c, c <> cid -> cellValue s1 c = cellValue s c).
  { intros c Hne. unfold cellValue at 1. unfold s1. rewrite updateRefs_cells.
    pose proof (setCell_cellValue s cid newcell c) as H.
    destruct (decide (c = cid)); [congruence | exact H]. }
  assert (Hother : forall c, c <> cid -> keys (refersTo s1) c = keys (refersTo s) c).
  { intros c Hne. apply (updateRefs_other o s0 cid newcell c Hne). }
  destruct (rootReferrers o s1 cid) as [roots | | |] eqn:Er; try discriminate.
  destruct (topSort o s1 roots) as [order | | |] eqn:Et; try discriminate.
  simpl in Hdet |- *.
  assert (Ha1 : acyclic s1).
  { apply (acyclic_change_at s s1 cid Hother Ha). intros Hcyc. specialize (Hdet Hcyc).
    discriminate. }
  assert (Hc1 : covers s1).
  { intros c e. rewrite HcellE. destruct (decide (c = cid)) as [-> | Hne].
    - intros He. unfold s1. rewrite (updateRefs_keys o s0 cid newcell e cid He).
      destruct (decide (cid = cid)); [| congruence]. apply Hlisted, He.
    - intros He. rewrite (Hother c Hne). apply Hc, He. }
  destruct (topSort_sound _ _ _ _ Et) as (Hdeps & Hnodup & Hroots).
  set (stable := fun c => ~ rtc (edge s1) c cid).
  assert (Hst1 : forall c, stable c -> consistentAt s1 c).
  { intros c Hst e. assert (Hne : c <> cid) by (intros ->; apply Hst, rtc_refl).
    rewrite HcellE. destruct (decide (c = cid)); [congruence |]. intros He.
    rewrite (HcellV c Hne), (Hv c e He). apply evalExpr_ext. intros r Hr.
    symmetry. apply HcellV. intros ->. apply Hst, rtc_once.
    unfold edge. rewrite (Hother c Hne). apply (Hc c e He), Hr. }
  assert (Hst2 : forall c r, stable c -> edge s1 c r -> stable r).
  { intros c r Hst Hcr Hr. apply Hst. eapply rtc_l; eassumption. }
  assert (Hrest : forall c, c ∉ order -> stable c).
  { intros c Hnin Hanc.
    destruct (rootReferrers_complete o s1 cid roots Hi1 Ha1 Er c Hanc) as (r & Hr & Hrc).
    specialize (Hroots r Hr). apply rtc_tc in Hrc as [-> | Hrc]; [exact (Hnin Hroots) |].
    apply list_elem_of_split in Hroots as (l1 & l2 & E).
    pose proof (dependenciesFirst_reach _ _ _ _ Hdeps Hrc l1 l2 E). subst order. set_solver. }
  pose proof (reevaluated_all s1 order stable Hdeps Hnodup Hc1 Hst1 Hst2)
    as (Hg & He & _).
  destruct (reevaluate_graph order s1) as [G1 G2].
  split; [eapply inverse_graph; eassumption |].
  split; [eapply acyclic_graph; eassumption |]. split.
  - intros c e. rewrite He, G1. apply Hc1.
  - apply (reevaluated_consistent s1 order stable Hdeps Hnodup Hc1 Hst1 Hst2 Hrest).
Qed.

(** A call that does not report a circular reference keeps the sheet
    settled, provided [CellRefs] lists every reference of the formula. *)
Lemma SetCellValue_settled ParseExpr o s cellID v :
  settled s -> listedVal ParseExpr v ->
  snd (SetCellValue ParseExpr o s cellID v) <> Err ErrCircRef ->
  settled (fst (SetCellValue ParseExpr o s cellID v)).
Proof.
  intros Hs Hl. unfold SetCellValue.
  destruct (ParseCellID cellID) as [cid | | |]; try (intros _; exact Hs).
  pose proof (ensureCell_settled s cid Hs) as Hs0.
  destruct v as [n | text |]; [| | intros _; exact Hs0].
  - intros Hr. apply refresh_settled; [exact Hs | intros e; discriminate |].
    destruct (refresh_returns o (setCell (ensureCell s cid) cid (mkCell n None)) cid);
      congruence.
  - destruct (ParseExpr text) as [e | | |] eqn:Ep; try (intros _; exact Hs0).
    intros Hr. apply refresh_settled; [exact Hs | |].
    + intros e' [= <-]. apply (Hl e Ep).
    + destruct (refresh_returns o (setCell (ensureCell s cid) cid (mkCell 0 (Some e))) cid);
        congruence.
Qed.

Lemma tc_first_edge s x y : tc (edge s) x y -> exists z, edge s x z.
Proof. intros H. destruct H as [x y H | x y z H _]; exists y; exact H. Qed.

Lemma NewSpreadsheet_settled : settled NewSpreadsheet.
Proof.
  split; [apply NewSpreadsheet_inverse |]. split; [| split].
  - intros x Hx. destruct (tc_first_edge _ _ _ Hx) as [y Hy].
    unfold edge in Hy. simpl in Hy. rewrite keys_empty in Hy.
    exact (not_elem_of_empty y Hy).
  - intros c e He. unfold cellExpr in He. simpl in He. rewrite lookup_empty in He.
    discriminate He.
  - intros c e He. unfold cellExpr in He. simpl in He. rewrite lookup_empty in He.
    discriminate He.
Qed.

Lemma runCall_snd ParseExpr st c :
  snd (runCall ParseExpr st c)
  = snd st ++ [snd (SetCellValue ParseExpr (fst (fst c)) (fst st) (snd (fst c)) (snd c))].
Proof.
  destruct c as [[o cellID] v]. unfold runCall. simpl.
  destruct (SetCellValue ParseExpr o (fst st) cellID v). reflexivity.
Qed.

Lemma run_results_grow ParseExpr calls st r :
  r ∈ snd st -> r ∈ snd (foldl (runCall ParseExpr) st calls).
Proof.
  revert st. induction calls as [| c calls IH]; intros st Hr; simpl; [exact Hr |].
  apply IH. rewrite runCall_snd. set_solver.
Qed.

(** On a fresh sheet, as long as no call reports a circular reference and
    [CellRefs] lists the references of every formula written, the sheet is
    settled after every call: each formula cell caches the value of its
    formula, so [GetCellValue] reads no stale value. *)
Lemma run_settled ParseExpr (calls : list call) :
  Forall (fun c => listedVal ParseExpr (snd c)) calls ->
  Err ErrCircRef ∉ snd (run ParseExpr calls) ->
  settled (fst (run ParseExpr calls)).
Proof.
  unfold run. intros Hl.
  assert (Hgen : forall st, settled (fst st) ->
            Err ErrCircRef ∉ snd (foldl (runCall ParseExpr) st calls) ->
            settled (fst (foldl (runCall ParseExpr) st calls))).
  { induction Hl as [| c calls Hc _ IH]; intros st Hst Hno; simpl; [exact Hst |].
    simpl in Hno. apply IH; [| exact Hno].
    rewrite runCall_fst. apply SetCellValue_settled; [exact Hst | exact Hc |].
    intros Herr. apply Hno. apply run_results_grow. rewrite runCall_snd, Herr. set_solver. }
  apply Hgen, NewSpreadsheet_settled.
Qed.

Lemma settled_GetCellValue s cellID cid e :
  settled s -> ParseCellID cellID = Ok cid -> cellExpr s cid = Some e ->
  GetCellValue s cellID = Ok (evalExpr s e).
Proof.
  intros (_ & _ & _ & Hv) Hcid He. rewrite GetCellValue_cellValue, Hcid. simpl.
  rewrite (Hv cid e He). reflexivity.
Qed.

(** ** What [topSort] and [rootReferrers] return *)

Section VisitReach.
Variable o : RangeOrder.
Variable s : Spreadsheet.
Variable R : CellID -> Prop.
Hypothesis R_closed : forall x y, R x -> edge s x y -> R y.

Lemma forEach_visit_pred (fuel : nat) :
  (forall m curr m', visit o s fuel m curr = Ok m' -> R curr ->
     (forall x, x ∈ sorted m -> R x) -> forall x, x ∈ sorted m' -> R x) ->
  forall l m m', forEach (visit o s fuel) l m = Ok m' -> (forall y, y ∈ l -> R y) ->
    (forall x, x ∈ sorted m -> R x) -> forall x, x ∈ sorted m' -> R x.
Proof.
  intros Hv l. induction l as [| y l IH]; intros m m' Hrun Hl Hm.
  - simpl in Hrun. injection Hrun as <-. exact Hm.
  - cbn [forEach] in Hrun.
    destruct (visit o s fuel m y) as [m1 | | |] eqn:E; cbn [bind] in Hrun; try discriminate.
    apply (IH m1 m' Hrun); [intros z Hz; apply Hl; set_solver |].
    apply (Hv m y m1 E); [apply Hl; set_solver | exact Hm].
Qed.

Lemma visit_pred (fuel : nat) (m : marks) (curr : CellID) (m' : marks) :
  visit o s fuel m curr = Ok m' -> R curr ->
  (forall x, x ∈ sorted m -> R x) -> forall x, x ∈ sorted m' -> R x.
Proof.
  revert m curr m'. induction fuel as [| fuel IH]; intros m curr m'; simpl.
  - destruct (decide (curr ∈ perm m)); [| destruct (decide (curr ∈ temp m)); discriminate].
    intros [= <-] _ Hm. exact Hm.
  - destruct (decide (curr ∈ perm m)); [intros [= <-] _ Hm; exact Hm |].
    destruct (decide (curr ∈ temp m)); [discriminate |].
    destruct (forEach (visit o s fuel) _ _) as [m2 | | |] eqn:E; cbn [bind]; try discriminate.
    intros [= <-] Hc Hm x Hx. simpl in Hx. apply elem_of_app in Hx as [Hx | Hx].
    + apply (forEach_visit_pred fuel IH _ _ _ E); [| exact Hm | exact Hx].
      intros y Hy. apply rangeOver_elem in Hy. apply (R_closed curr y Hc Hy).
    + apply list_elem_of_singleton in Hx as ->. exact Hc.
Qed.
End VisitReach.

Lemma topSort_reachable o s roots order :
  topSort o s roots = Ok order ->
  forall x, x ∈ order -> exists r, r ∈ roots /\ rtc (edge s) r x.
Proof.
  unfold topSort. intros H.
  destruct (forEach (visit o s _) roots (mkMarks ∅ ∅ [])) as [m | | |] eqn:E;
    cbn [bind] in H; try discriminate.
  injection H as <-.
  set (R := fun x => exists r, r ∈ roots /\ rtc (edge s) r x).
  assert (HR : forall x y, R x -> edge s x y -> R y).
  { intros x y (r & Hr & Hrx) Hxy. exists r. split; [exact Hr |].
    eapply rtc_r; eassumption. }
  revert E. generalize (size (list_to_set roots ∪ members (refersTo s) : gset CellID)).
  intros fuel E.
  refine (forEach_visit_pred o s R HR fuel _ roots _ m E _ _).
  - intros m0 curr m'. apply (visit_pred o s R HR fuel).
  - intros y Hy. exists y. split; [exact Hy | apply rtc_refl].
  - intros x Hx. inversion Hx.
Qed.

(** X: the order [topSort] returns has no duplicates, lists every cell
    after the cells it refers to, and holds exactly the cells reachable from
    the start nodes along [refersTo]. *)
Theorem topSort_order (o : RangeOrder) (s : Spreadsheet) (roots order : list CellID) :
  topSort o s roots = Ok order ->
  NoDup order /\
  dependenciesFirst s order /\
  forall x, x ∈ order <-> exists r, r ∈ roots /\ rtc (edge s) r x.
Proof.
  intros H. destruct (topSort_sound o s roots order H) as (Hdeps & Hnd & Hroots).
  split; [exact Hnd |]. split; [exact Hdeps |]. intros x. split.
  - apply (topSort_reachable o s roots order H).
  - intros (r & Hr & Hrx). specialize (Hroots r Hr).
    apply rtc_tc in Hrx as [-> | Hrx]; [exact Hroots |].
    apply list_elem_of_split in Hroots as (l1 & l2 & E).
    pose proof (dependenciesFirst_reach _ _ _ _ Hdeps Hrx l1 l2 E). subst order. set_solver.
Qed.

Lemma topSort_order_witness :
  NoDup [mkCellID 0 2; mkCellID 0 1; mkCellID 0 0; mkCellID 1 0] /\
  dependenciesFirst basicSheet [mkCellID 0 2; mkCellID 0 1; mkCellID 0 0; mkCellID 1 0] /\
  forall x, x ∈ [mkCellID 0 2; mkCellID 0 1; mkCellID 0 0; mkCellID 1 0]
            <-> exists r, r ∈ [mkCellID 1 0] /\ rtc (edge basicSheet) r x.
Proof.
  apply (topSort_order defaultOrder basicSheet [mkCellID 1 0]).
  vm_compute. reflexivity.
Defined.

Lemma bfs_unreferenced o s (fuel : nat) (frontier : list CellID) (seen : gset CellID)
    (startCells r : list CellID) :
  (forall x, x ∈ startCells -> keys (referredFrom s) x = ∅) ->
  bfs o s fuel frontier seen startCells = Ok r ->
  forall x, x ∈ r -> keys (referredFrom s) x = ∅.
Proof.
  revert frontier seen startCells.
  induction fuel as [| fuel IH]; intros frontier seen startCells Hs.
  - destruct frontier; simpl; [| discriminate]. intros [= <-]. exact Hs.
  - destruct frontier as [| curr frontier]; cbn [bfs]; [intros [= <-]; exact Hs |].
    destruct (foldl enqueue (frontier, seen) _) as [frontier' seen'].
    apply IH.
    destruct (decide (size (keys (referredFrom s) curr) = 0%nat)) as [Hz |]; [| exact Hs].
    intros x Hx. apply elem_of_app in Hx as [Hx | Hx]; [auto |].
    apply list_elem_of_singleton in Hx as ->.
    apply size_empty_inv in Hz. apply leibniz_equiv, Hz.
Qed.

(** X: [rootReferrers] returns a non-empty list of cells that refer,
    directly or not, to the mutated cell (or are that cell); unless it is
    the fallback [[cid]], its members are unreferenced, every unreferenced
    such cell is among them, and in an acyclic graph every cell that refers
    to the mutated cell is reached from one of them. *)
Theorem rootReferrers_roots (o : RangeOrder) (s : Spreadsheet) (cid : CellID) :
  inverse s ->
  exists roots,
    rootReferrers o s cid = Ok roots /\ roots <> [] /\
    (forall r, r ∈ roots -> rtc (edge s) r cid) /\
    (roots = [cid] \/ forall r, r ∈ roots -> keys (referredFrom s) r = ∅) /\
    (forall x, rtc (edge s) x cid -> keys (referredFrom s) x = ∅ -> x ∈ roots) /\
    (acyclic s -> forall x, rtc (edge s) x cid -> exists r, r ∈ roots /\ rtc (edge s) r x).
Proof.
  intros Hinv. destruct (rootReferrers_returns o s cid) as (roots & Hr & Hne).
  exists roots. split; [exact Hr |]. split; [exact Hne |].
  destruct (rootReferrers_ancestors o s cid roots Hinv Hr) as [_ Hanc].
  split; [exact Hanc |].
  pose proof (fun Hac => rootReferrers_complete o s cid roots Hinv Hac Hr) as Hcomp.
  unfold rootReferrers in Hr. revert Hr.
  generalize (S (size (members (referredFrom s)))). intros fuel.
  destruct (bfs o s fuel [cid] {[cid]} []) as [startCells | | |] eqn:E; cbn [bind];
    try discriminate.
  assert (Hinv0 : bfsInv s [cid] {[cid]} []) by (intros x Hx; left; set_solver).
  destruct (bfs_closed o s _ _ _ _ _ Hinv0 E) as (S & Hcid & Hcl).
  assert (Hseen : forall x, rtc (edge s) x cid -> x ∈ S).
  { apply (rtc_ind_l (fun x => x ∈ S)); [set_solver |].
    intros x y Hxy _ IH. apply (Hcl y IH). apply Hinv. exact Hxy. }
  assert (Hun : forall x, x ∈ startCells -> keys (referredFrom s) x = ∅).
  { apply (bfs_unreferenced o s fuel [cid] {[cid]} [] startCells); [| exact E].
    intros x Hx. inversion Hx. }
  assert (Hall : forall x, rtc (edge s) x cid -> keys (referredFrom s) x = ∅ ->
                           x ∈ startCells).
  { intros x Hx Hz. apply (Hcl x (Hseen x Hx)). rewrite Hz. apply size_empty. }
  destruct startCells as [| r0 rs]; intros [= <-].
  - split; [left; reflexivity |]. split; [| exact Hcomp].
    intros x Hx Hz. specialize (Hall x Hx Hz). inversion Hall.
  - split; [right; exact Hun |]. split; [exact Hall | exact Hcomp].
Qed.

Lemma foldl_runCall_inverse ParseExpr (calls : list call) st :
  inverse (fst st) -> inverse (fst (foldl (runCall ParseExpr) st calls)).
Proof.
  revert st. induction calls as [| c calls IH]; intros st Hst; simpl; [exact Hst |].
  apply IH. rewrite runCall_fst. apply SetCellValue_inverse, Hst.
Qed.

Lemma run_keeps_inverse ParseExpr (calls : list call) : inverse (fst (run ParseExpr calls)).
Proof. apply foldl_runCall_inverse, NewSpreadsheet_inverse. Qed.

Lemma rootReferrers_roots_witness :
  exists roots,
    rootReferrers defaultOrder basicSheet (mkCellID 0 1) = Ok roots /\ roots <> [] /\
    (forall r, r ∈ roots -> rtc (edge basicSheet) r (mkCellID 0 1)) /\
    (roots = [mkCellID 0 1] \/ forall r, r ∈ roots -> keys (referredFrom basicSheet) r = ∅) /\
    (forall x, rtc (edge basicSheet) x (mkCellID 0 1) ->
               keys (referredFrom basicSheet) x = ∅ -> x ∈ roots) /\
    (acyclic basicSheet -> forall x, rtc (edge basicSheet) x (mkCellID 0 1) ->
                           exists r, r ∈ roots /\ rtc (edge basicSheet) r x).
Proof.
  apply (rootReferrers_roots defaultOrder basicSheet (mkCellID 0 1)).
  apply (run_keeps_inverse Expr.ParseExpr (withOrders (fun _ => defaultOrder) basicSpreadsheet)).
Defined.

(** ** Circular references and the recorded graph *)

Lemma tc_edge_graph s s' x y :
  refersTo s' = refersTo s -> tc (edge s') x y -> tc (edge s) x y.
Proof. unfold edge. intros ->. auto. Qed.

Lemma refresh_refersTo o s cid cell :
  cells s !! cid = Some cell ->
  refersTo (fst (refresh o s cid)) = refersTo (updateRefs o s cid cell).
Proof.
  intros Hcell. pose proof (refresh_graph o s cid) as H. rewrite Hcell in H. apply H.
Qed.

Lemma setCell_lookup s cid cell : cells (setCell s cid cell) !! cid = Some cell.
Proof. simpl. apply lookup_insert_eq. Qed.

Lemma setCell_inverse s cid c newcell :
  inverse s -> inverse (setCell (ensureCell s cid) c newcell).
Proof.
  intros H. destruct (ensureCell_graph s cid) as [E1 E2].
  eapply inverse_graph; [| | exact H]; simpl; assumption.
Qed.

(** X: a call that stores a value never returns success while the recorded
    graph has a cycle through the cell it wrote: it returns [ErrCircRef]. *)
Theorem SetCellValue_rejects_cycle (ParseExpr : string -> result Expr) (o : RangeOrder)
    (s : Spreadsheet) (cellID : string) (cid : CellID) (v : Val) :
  inverse s -> ParseCellID cellID = Ok cid -> storable ParseExpr v ->
  tc (edge (fst (SetCellValue ParseExpr o s cellID v))) cid cid ->
  snd (SetCellValue ParseExpr o s cellID v) = Err ErrCircRef.
Proof.
  intros Hinv Hcid Hv. unfold SetCellValue. rewrite Hcid.
  destruct v as [n | text |]; [| | destruct Hv].
  - intros Hcyc. apply (refresh_detects_cycle o _ cid (mkCell n None));
      [apply setCell_inverse, Hinv | apply setCell_lookup |].
    eapply tc_edge_graph; [| exact Hcyc]. apply refresh_refersTo, setCell_lookup.
  - destruct Hv as [e He]. rewrite He. intros Hcyc.
    apply (refresh_detects_cycle o _ cid (mkCell 0 (Some e)));
      [apply setCell_inverse, Hinv | apply setCell_lookup |].
    eapply tc_edge_graph; [| exact Hcyc]. apply refresh_refersTo, setCell_lookup.
Qed.

Lemma SetCellValue_rejects_cycle_witness :
  snd (SetCellValue Expr.ParseExpr reverseOrder basicSheet "A1" (VString "=B1*2"))
  = Err ErrCircRef.
Proof.
  apply (SetCellValue_rejects_cycle Expr.ParseExpr reverseOrder basicSheet "A1"
           (mkCellID 0 0) (VString "=B1*2")).
  - apply (run_keeps_inverse Expr.ParseExpr).
  - vm_compute. reflexivity.
  - eexists. vm_compute. reflexivity.
  - apply (tc_l _ _ (mkCellID 1 0)); [| apply tc_once]; unfold edge;
      apply elem_of_elements; vm_compute; repeat constructor.
Defined.

(** X: [SetCellValue] returns [ErrCircRef] only when the recorded graph it
    leaves behind has a cycle (the parser itself never returns that error). *)
Theorem SetCellValue_circular_cycle (ParseExpr : string -> result Expr) (o : RangeOrder)
    (s : Spreadsheet) (cellID : string) (v : Val) :
  (forall text, ParseExpr text <> Err ErrCircRef) ->
  snd (SetCellValue ParseExpr o s cellID v) = Err ErrCircRef ->
  exists z, tc (edge (fst (SetCellValue ParseExpr o s cellID v))) z z.
Proof.
  intros HP. unfold SetCellValue.
  destruct (ParseCellID_returns cellID) as [[cid ->] | ->]; [| discriminate].
  assert (Href : forall cell,
    snd (refresh o (setCell (ensureCell s cid) cid cell) cid) = Err ErrCircRef ->
    exists z, tc (edge (fst (refresh o (setCell (ensureCell s cid) cid cell) cid))) z z).
  { intros cell Herr.
    destruct (refresh_error_cycle o _ cid _ Herr) as (cell' & Hcell & z & Hz).
    exists z. eapply tc_edge_graph; [| exact Hz].
    symmetry. apply refresh_refersTo, Hcell. }
  destruct v as [n | text |]; [apply Href | | discriminate].
  specialize (HP text). destruct (ParseExpr text) as [e | err | |]; try discriminate.
  - apply Href.
  - simpl. intros [= ->]. congruence.
Qed.

(** ** What the parsers return *)

Lemma skipSpaces_not_Err (rs : list rune) (e : error) : skipSpaces rs <> Err e.
Proof.
  induction rs as [| c rs IH]; simpl; [discriminate |].
  destruct (Ascii.eqb c " "%char); [exact IH | discriminate].
Qed.

Lemma tokLoop_errors runeMap (fuel : nat) (rs : list rune) (tokens : list Token) :
  errorsIn (fun e => e = ErrExprParse) (tokLoop runeMap fuel rs tokens).
Proof.
  revert rs tokens. induction fuel as [| fuel IH]; intros rs tokens e.
  - destruct rs; discriminate.
  - destruct rs as [| c0 rs0]; [discriminate |]. cbn [tokLoop].
    pose proof (skipSpaces_not_Err (c0 :: rs0)) as Hsk.
    destruct (skipSpaces (c0 :: rs0)) as [rs1 | e1 | |]; cbn [bind]; try discriminate;
      [| intros _; exfalso; exact (Hsk e1 eq_refl)].
    destruct rs1 as [| c tl]; [discriminate |].
    destruct (isDigit c).
    + destruct (span isDigit (c :: tl)). apply IH.
    + destruct (isUpper c).
      * destruct (span isIdentChar (c :: tl)). apply IH.
      * destruct (runeMap c); [apply IH | congruence].
Qed.

Lemma tokenize_errors runeMap (s : string) :
  errorsIn (fun e => e = ErrExprParse) (tokenize runeMap s).
Proof.
  unfold tokenize. intros e. destruct (runes s) as [| c tl]; [discriminate |].
  destruct (negb (Ascii.eqb c "="%char)); [congruence | apply tokLoop_errors].
Qed.

Section ParserInvariant.
(** Errors the parsing functions may return, trees they may build. *)
Variable E : error -> Prop.
Variable Q : Expr -> Prop.
Hypothesis E_parse : E ErrExprParse.
Hypothesis E_paren : E (ErrPlain "expected ')'").
Hypothesis Q_ref : forall c, Q (CellRefExpr c).
Hypothesis Q_const : forall t v, Atoi t = Some v -> Q (ConstExpr v).
Hypothesis Q_neg : forall X, Q X -> Q (UnaryExpr X TokenSub).
Hypothesis Q_fold : forall v, Q (ConstExpr v) -> Q (ConstExpr (wrap64 (- v))).
Hypothesis Q_bin : forall X op Y,
  isTermTok op || isFactorTok op = true -> Q X -> Q Y -> Q (BinaryExpr X op Y).

Definition respects (f : list Token -> result parsed) : Prop :=
  forall ts, errorsIn E (f ts) /\ treesIn Q (f ts).

Lemma binLoop_respects validOps next (fuel : nat) (e0 : Expr) (rest : list Token) :
  (forall t, validOps t = true -> isTermTok t || isFactorTok t = true) ->
  respects next -> Q e0 ->
  errorsIn E (binLoop validOps next fuel e0 rest) /\
  treesIn Q (binLoop validOps next fuel e0 rest).
Proof.
  intros Hops Hnext. revert e0 rest. induction fuel as [| fuel IH]; intros e0 rest He0.
  - destruct rest as [| token tl]; simpl.
    + split; [discriminate | intros ? ? [= <- <-]; exact He0].
    + destruct (validOps token); [split; discriminate |].
      split; [discriminate | intros ? ? [= <- <-]; exact He0].
  - destruct rest as [| token tl]; simpl.
    + split; [discriminate | intros ? ? [= <- <-]; exact He0].
    + destruct (validOps token) eqn:Hv;
        [| split; [discriminate | intros ? ? [= <- <-]; exact He0]].
      destruct (Hnext tl) as [H1 H2].
      destruct (next tl) as [[Y rest'] | e1 | |]; cbn [bind].
      * apply IH. apply Q_bin; [apply Hops, Hv | exact He0 | eapply H2; reflexivity].
      * split; [intros ? [= <-]; apply H1; reflexivity | discriminate].
      * split; discriminate.
      * split; discriminate.
Qed.

Lemma parseBinExpr_respects validOps next :
  (forall t, validOps t = true -> isTermTok t || isFactorTok t = true) ->
  respects next -> respects (fun tokens => parseBinExpr tokens validOps next).
Proof.
  intros Hops Hnext ts. unfold parseBinExpr.
  destruct (Hnext ts) as [H1 H2].
  destruct (next ts) as [[e0 rest] | e1 | |]; cbn [bind].
  - apply binLoop_respects; [exact Hops | exact Hnext | eapply H2; reflexivity].
  - split; [intros ? [= <-]; apply H1; reflexivity | discriminate].
  - split; discriminate.
  - split; discriminate.
Qed.

Lemma isFactorTok_known t : isFactorTok t = true -> isTermTok t || isFactorTok t = true.
Proof. intros ->. apply orb_true_r. Qed.

Lemma isTermTok_known t : isTermTok t = true -> isTermTok t || isFactorTok t = true.
Proof. intros ->. reflexivity. Qed.

Lemma parsePrimary2_respects : respects Expr.parsePrimary2.
Proof.
  intros ts. unfold Expr.parsePrimary2. destruct ts as [| t tl].
  - split; [intros ? [= <-]; exact E_parse | discriminate].
  - destruct (ParseCellID t).
    1: split; [discriminate | intros ? ? [= <- <-]; apply Q_ref].
    all: destruct (Atoi t) eqn:Ha;
      (split; [try discriminate; intros ? [= <-]; exact E_parse
              | try discriminate; intros ? ? [= <- <-]; eapply Q_const, Ha]).
Qed.

Lemma parseUnary2_respects : respects Expr.parseUnary2.
Proof.
  intros ts. induction ts as [| t tl [IH1 IH2]].
  - split; [intros ? [= <-]; exact E_parse | discriminate].
  - cbn [Expr.parseUnary2]. destruct (String.eqb t TokenSub).
    + destruct (Expr.parseUnary2 tl) as [[X rest] | e1 | |]; cbn [bind].
      * split; [discriminate |]. intros ? ? [= <- <-]. apply Q_neg. eapply IH2; reflexivity.
      * split; [intros ? [= <-]; apply IH1; reflexivity | discriminate].
      * split; discriminate.
      * split; discriminate.
    + apply parsePrimary2_respects.
Qed.

Lemma Expr_parseTerm_respects : respects Expr.parseTerm.
Proof.
  apply (parseBinExpr_respects isTermTok Expr.parseFactor2 isTermTok_known).
  apply (parseBinExpr_respects isFactorTok Expr.parseUnary2 isFactorTok_known).
  apply parseUnary2_respects.
Qed.

Lemma parsePrimary_respects rec : respects rec -> respects (ExprParen.parsePrimary rec).
Proof.
  intros Hrec ts. unfold ExprParen.parsePrimary. destruct ts as [| t tl].
  - split; [intros ? [= <-]; exact E_parse | discriminate].
  - destruct (ParseCellID t).
    1: split; [discriminate | intros ? ? [= <- <-]; apply Q_ref].
    all: destruct (Atoi t) eqn:Ha;
      [split; [discriminate | intros ? ? [= <- <-]; eapply Q_const, Ha] |];
      (destruct (String.eqb t TokenLPar);
       [| split; [intros ? [= <-]; exact E_parse | discriminate]]);
      destruct (Hrec tl) as [H1 H2];
      (destruct (rec tl) as [[e0 rest] | e1 | |]; cbn [bind];
       [| split; [intros ? [= <-]; apply H1; reflexivity | discriminate]
        | split; discriminate | split; discriminate]);
      (destruct rest as [| r0 rest'];
       [split; [intros ? [= <-]; exact E_paren | discriminate] |]);
      (destruct (String.eqb r0 TokenRPar);
       [split; [discriminate | intros ? ? [= <- <-]; eapply H2; reflexivity]
       | split; [intros ? [= <-]; exact E_paren | discriminate]]).
Qed.

Lemma parseUnary_respects rec : respects rec -> respects (ExprParen.parseUnary rec).
Proof.
  intros Hrec ts. induction ts as [| t tl [IH1 IH2]].
  - split; [intros ? [= <-]; exact E_parse | discriminate].
  - cbn [ExprParen.parseUnary]. destruct (String.eqb t TokenSub).
    + destruct (ExprParen.parseUnary rec tl) as [[X rest] | e1 | |] eqn:Eu; cbn [bind].
      * specialize (IH2 X rest eq_refl).
        destruct X; (split; [discriminate | intros ? ? [= <- <-]]);
          try (apply Q_neg; exact IH2). apply Q_fold. exact IH2.
      * split; [intros ? [= <-]; apply IH1; reflexivity | discriminate].
      * split; discriminate.
      * split; discriminate.
    + apply parsePrimary_respects, Hrec.
Qed.

Lemma parseExprFuel_respects (fuel : nat) : respects (ExprParen.parseExprFuel fuel).
Proof.
  induction fuel as [| fuel IH]; [intros ts; split; discriminate |].
  change (ExprParen.parseExprFuel (S fuel))
    with (ExprParen.parseTerm (ExprParen.parseExprFuel fuel)).
  apply (parseBinExpr_respects isTermTok _ isTermTok_known).
  apply (parseBinExpr_respects isFactorTok _ isFactorTok_known).
  apply parseUnary_respects, IH.
Qed.
End ParserInvariant.
